(** * gorocksdb: the DB handle, the callback registry and the filter shim

  A shallow embedding of [compaction_filter.go] and of the DB wrapper
  (the file that declares [type DB struct]) of youzan/gorocksdb.

  Conventions
  - Go [int], [int32], [C.int], [C.size_t] values are [Z]; lengths of
    slices that live in memory never reach 2^63, so no wrap-around is
    written out for [len].  [uint64] additions wrap modulo 2^64.
  - A Go slice that may be [nil] is an [option (list _)]: [None] is the
    nil slice, [Some []] the empty non-nil one.
  - A run-time panic of a pure function is [None]. *)

From Stdlib Require Import ZArith String.
From Stdlib.Strings Require Import Byte.
From stdpp Require Import base option list.

Local Open Scope Z_scope.

Definition bytes : Type := list Byte.byte.

(** A Go slice value; [None] is [nil]. *)
Definition slice (A : Type) : Type := option (list A).

(** Go's builtin [len]. *)
Definition len {A} (s : slice A) : Z :=
  match s with
  | None => 0
  | Some l => Z.of_nat (length l)
  end.

(** ** Go slice primitives on backing arrays *)
Module GoSlice.
Section prims.
Context {A : Type}.

(** [make([]T, n)] for a zero value [zero]; a negative length panics. *)
Definition make (zero : A) (n : Z) : option (list A) :=
  if decide (0 <= n) then Some (replicate (Z.to_nat n) zero) else None.

(** [copy(dst, src)]: overwrites the first [min(len dst, len src)]
    elements of [dst]. *)
Definition copy (dst src : list A) : list A :=
  take (length dst) src ++ drop (length src) dst.

(** [l[i]] as an rvalue: out of range panics. *)
Definition index (l : list A) (i : Z) : option A :=
  if decide (0 <= i) then l !! Z.to_nat i else None.

(** [l[i] = x]: out of range panics. *)
Definition store (l : list A) (i : Z) (x : A) : option (list A) :=
  if decide (0 <= i < Z.of_nat (length l))
  then Some (<[Z.to_nat i := x]> l) else None.

End prims.
End GoSlice.

(** ** compaction_filter.go: COWList *)
Module COWList.
Section cowlist.
(** The element type is Go's [interface{}]; its zero value ([nil]) is
    the [inhabitant]. *)
Context {A : Type} `{!Inhabited A}.

(** [arrays] is the heap of backing arrays that Append has allocated,
    addressed by position; [v] is the address that the [atomic.Value]
    currently holds.  The mutex [mu] serialises Append calls: a run of
    the model is one such serial order. *)
Record t : Type := mk { arrays : list (list A); v : nat }.

(** [c.v.Load().([]interface{})] *)
Definition Load (c : t) : option (list A) := arrays c !! v c.

(** [NewCOWList]: stores the nil slice. *)
Definition NewCOWList : t := {| arrays := [[]]; v := 0%nat |}.

(** [func (c *COWList) Append(i interface{}) int] *)
Definition Append (c : t) (i : A) : option (Z * t) :=
  list ← Load c;
  let newLen := Z.of_nat (length list) + 1 in
  newList ← GoSlice.make inhabitant newLen;
  let newList := GoSlice.copy newList list in
  newList ← GoSlice.store newList (newLen - 1) i;
  Some (newLen - 1,
        {| arrays := arrays c ++ [newList]; v := length (arrays c) |}).

(** [func (c *COWList) Get(index int) interface{}] *)
Definition Get (c : t) (index : Z) : option A :=
  list ← Load c;
  GoSlice.index list index.

(** Length of the published snapshot. *)
Definition Len (c : t) : Z :=
  match Load c with
  | Some l => Z.of_nat (length l)
  | None => 0
  end.

(** A sequence of Append calls, collecting the returned indices. *)
Fixpoint AppendAll (c : t) (items : list A) : option (list Z * t) :=
  match items with
  | [] => Some ([], c)
  | i :: items =>
      '(idx, c) ← Append c i;
      '(idxs, c) ← AppendAll c items;
      Some (idx :: idxs, c)
  end.

(** The indices [from, from+1, ..., from+n-1]. *)
Definition indices (from : nat) (n : nat) : list Z :=
  Z.of_nat <$> seq from n.
End cowlist.
Global Arguments t : clear implicits.
End COWList.

(** ** compaction_filter.go: the filter interface and the dispatch shim *)
Module Filter.

(** [type CompactionFilter interface]: an object is its method table. *)
Record CompactionFilter : Type := {
  Filter : Z → slice Byte.byte → slice Byte.byte → bool * slice Byte.byte;
  Name : string
}.

(** [nativeCompactionFilter{c}]: keeps every pair, unchanged; its name is
    the empty string. *)
Definition nativeCompactionFilter {C : Type} (c : C) : CompactionFilter :=
  {| Filter := λ _ _ _, (false, None); Name := EmptyString |}.

(** [NewNativeCompactionFilter] *)
Definition NewNativeCompactionFilter {C : Type} (c : C) : CompactionFilter :=
  nativeCompactionFilter c.

(** [type compactionFilterWrapper struct]; [name] is the C copy of the
    filter's name made by [C.CString], kept by content. *)
Record compactionFilterWrapper : Type := {
  name : string;
  filter : CompactionFilter
}.

(** What the registry stores: an [interface{}] that is nil or holds a
    wrapper. *)
Inductive iface : Type :=
| inil
| iwrapper (w : compactionFilterWrapper).

#[global] Instance iface_inhabited : Inhabited iface := populate inil.

(** The type assertion [x.(compactionFilterWrapper)]; panics on nil. *)
Definition assert_wrapper (x : iface) : option compactionFilterWrapper :=
  match x with
  | inil => None
  | iwrapper w => Some w
  end.

(** The package variable [compactionFilters] is passed explicitly. *)
Definition registry : Type := COWList.t iface.

(** [func registerCompactionFilter(filter CompactionFilter) int] *)
Definition registerCompactionFilter (compactionFilters : registry)
    (filter : CompactionFilter) : option (Z * registry) :=
  COWList.Append compactionFilters
    (iwrapper {| name := Name filter; filter := filter |}).

(** The three out-parameters of the shim, as the memory cells the engine
    passes in: [*cNewVal], [*cNewValLen], [*cValChanged]. *)
Record outputs (Cchar : Type) : Type := {
  cNewVal : Cchar;
  cNewValLen : Z;
  cValChanged : Z
}.
Global Arguments cNewVal {_} _.
Global Arguments cNewValLen {_} _.
Global Arguments cValChanged {_} _.

Section shim.
(** [*C.char] and the two marshalling helpers the shim calls are declared
    elsewhere in the package; they are taken as parameters. *)
Context {Cchar : Type}.
Variable charToByte : Cchar → Z → slice Byte.byte.
Variable byteToChar : slice Byte.byte → Cchar.

(** [func gorocksdb_compactionfilter_filter(idx, cLevel, cKey, cKeyLen,
    cVal, cValLen, cNewVal, cNewValLen, cValChanged) C.int]: the result is
    the returned [C.int] and the out-parameter cells after the call. *)
Definition gorocksdb_compactionfilter_filter (compactionFilters : registry)
    (idx : Z) (cLevel : Z) (cKey : Cchar) (cKeyLen : Z)
    (cVal : Cchar) (cValLen : Z) (out : outputs Cchar)
    : option (Z * outputs Cchar) :=
  let key := charToByte cKey cKeyLen in
  let val := charToByte cVal cValLen in
  x ← COWList.Get compactionFilters idx;
  w ← assert_wrapper x;
  let '(remove, newVal) := Filter (filter w) cLevel key val in
  if remove then Some (1, out)
  else if bool_decide (newVal ≠ None) then
    Some (0, {| cNewVal := byteToChar newVal;
                cNewValLen := len newVal;
                cValChanged := 1 |})
  else Some (0, out).
End shim.

(** [func gorocksdb_compactionfilter_name(idx int) *C.char] *)
Definition gorocksdb_compactionfilter_name (compactionFilters : registry)
    (idx : Z) : option string :=
  x ← COWList.Get compactionFilters idx;
  w ← assert_wrapper x;
  Some (name w).

End Filter.

(** ** The DB wrapper: data model *)
Module DB.

(** [error] values: the package variable [errDBClosed], and the values
    that [errors.New] makes from an engine message.  [errors.New] returns
    a fresh value at every call, never [errDBClosed] itself. *)
Inductive error : Type :=
| errDBClosed
| errorsNew (msg : string).

(** [type Range struct] *)
Record Range : Type := { Start : slice Byte.byte; Limit : slice Byte.byte }.

(** [type LiveFileMetadata struct] *)
Record LiveFileMetadata : Type := {
  lfName : string;
  lfLevel : Z;
  lfSize : Z;
  SmallestKey : bytes;
  LargestKey : bytes
}.

(** Option objects, column families and write batches are used only
    through their native pointer [.c], kept as a number. *)
Definition Options : Type := nat.
Definition ReadOptions : Type := nat.
Definition WriteOptions : Type := nat.
Definition FlushOptions : Type := nat.
Definition ColumnFamilyHandle : Type := nat.
Definition WriteBatch : Type := nat.

(** The bytes a native call reads through a [(pointer, length)] pair that
    was made from a Go slice. *)
Definition data (s : slice Byte.byte) : bytes := default [] s.

(** The entry points of the C API that the wrapper calls. *)
Inductive NativeCall : Type :=
| rocksdb_open (opts : Options) (name : string)
| rocksdb_open_for_read_only (opts : Options) (name : string)
    (errorIfLogFileExist : bool)
| rocksdb_open_column_families (opts : Options) (name : string)
    (n : Z) (cfNames : list string) (cfOpts : list Options)
| rocksdb_open_for_read_only_column_families (opts : Options)
    (name : string) (n : Z) (cfNames : list string) (cfOpts : list Options)
    (errorIfLogFileExist : bool)
| rocksdb_get (opts : ReadOptions) (key : bytes)
| rocksdb_get_cf (opts : ReadOptions) (cf : ColumnFamilyHandle) (key : bytes)
| rocksdb_multi_get (opts : ReadOptions) (n : Z) (keys : list bytes)
| rocksdb_put (opts : WriteOptions) (key value : bytes)
| rocksdb_put_cf (opts : WriteOptions) (cf : ColumnFamilyHandle)
    (key value : bytes)
| rocksdb_delete (opts : WriteOptions) (key : bytes)
| rocksdb_delete_cf (opts : WriteOptions) (cf : ColumnFamilyHandle)
    (key : bytes)
| rocksdb_merge (opts : WriteOptions) (key value : bytes)
| rocksdb_merge_cf (opts : WriteOptions) (cf : ColumnFamilyHandle)
    (key value : bytes)
| rocksdb_write (opts : WriteOptions) (batch : WriteBatch)
| rocksdb_create_iterator (opts : ReadOptions)
| rocksdb_create_iterator_cf (opts : ReadOptions) (cf : ColumnFamilyHandle)
| rocksdb_create_snapshot
| rocksdb_property_value (prop : string)
| rocksdb_property_value_cf (cf : ColumnFamilyHandle) (prop : string)
| rocksdb_create_column_family (opts : Options) (name : string)
| rocksdb_drop_column_family (cf : ColumnFamilyHandle)
| rocksdb_approximate_sizes (n : Z) (ranges : list (bytes * bytes))
| rocksdb_approximate_memtable_sizes (n : Z) (ranges : list (bytes * bytes))
| rocksdb_approximate_sizes_cf (cf : ColumnFamilyHandle) (n : Z)
    (ranges : list (bytes * bytes))
| rocksdb_approximate_memtable_sizes_cf (cf : ColumnFamilyHandle) (n : Z)
    (ranges : list (bytes * bytes))
| rocksdb_get_table_property_keynum_in_ranges (n : Z)
    (ranges : list (bytes * bytes))
| rocksdb_livefiles
| rocksdb_livefiles_destroy
| rocksdb_compact_range (start limit : option bytes)
| rocksdb_compact_range_cf (cf : ColumnFamilyHandle) (start limit : bytes)
| rocksdb_flush (opts : FlushOptions)
| rocksdb_disable_file_deletions
| rocksdb_enable_file_deletions (force : bool)
| rocksdb_delete_file_in_range (start limit : bytes)
| rocksdb_delete_file (name : string)
| rocksdb_shutdown
| rocksdb_close
| rocksdb_list_column_families (opts : Options) (name : string)
| rocksdb_list_column_families_destroy (names : list (option string))
| rocksdb_destroy_db (opts : Options) (name : string)
| rocksdb_repair_db (opts : Options) (name : string).

(** Whether the call receives [db.c] and so dereferences the engine
    instance behind it. *)
Definition uses_db (call : NativeCall) : bool :=
  match call with
  | rocksdb_open _ _
  | rocksdb_open_for_read_only _ _ _
  | rocksdb_open_column_families _ _ _ _ _
  | rocksdb_open_for_read_only_column_families _ _ _ _ _ _
  | rocksdb_livefiles_destroy
  | rocksdb_list_column_families _ _
  | rocksdb_list_column_families_destroy _
  | rocksdb_destroy_db _ _
  | rocksdb_repair_db _ _ => false
  | _ => true
  end.

(** A C pointer the wrapper frees: [NULL], a buffer the wrapper itself
    allocated ([C.malloc] in [cByteSlice], [C.CString]), identified by its
    address, or a buffer or string that the engine returned, identified by
    its content. *)
Inductive cptr : Type :=
| NULL
| HostBuf (addr : nat)
| EngineBuf (content : bytes)
| EngineStr (content : string).

(** What the process does that is visible outside the Go heap. *)
Inductive Event : Type :=
| EvRLock
| EvRUnlock
| EvLock
| EvUnlock
| EvCByteSlice (addr : nat) (content : slice Byte.byte)
| EvCString (addr : nat) (content : string)
| EvFree (p : cptr)
| EvCall (call : NativeCall).

(** Everything a native call can hand back; each wrapper reads the fields
    of the entry point it called. *)
Record Reply : Type := {
  r_value : option bytes;           (* returned [char*] of the returned length; [None] is NULL *)
  r_err : option string;            (* what is left in [*errptr]; [None] is NULL *)
  r_values : list (option bytes);   (* multi_get: [values_list] *)
  r_errs : list (option string);    (* multi_get: [errs] *)
  r_sizes : list Z;                 (* approximate sizes written to [sizes] *)
  r_num : Z;                        (* returned integer *)
  r_str : option string;            (* returned C string; [None] is NULL *)
  r_ptr : nat;                      (* returned object pointer *)
  r_ptrs : list nat;                (* open: column family handles written *)
  r_files : list LiveFileMetadata;  (* the content of a livefiles object *)
  r_names : list (option string)    (* list_column_families: the names *)
}.

(** [sync.RWMutex] *)
Record RWMutex : Type := { readers : nat; writer : bool }.

(** [type DB struct]; the embedded mutex is the field [mu]. *)
Record DB : Type := {
  mu : RWMutex;
  c : nat;
  name : string;
  opts : Options;
  opened : Z
}.

(** The state of the process around one DB handle: the handle, whether
    the engine instance behind [db.c] still exists (it does until
    [rocksdb_close] destroys it), the next free address of the C heap,
    and the trace of events so far, oldest first. *)
Record World : Type := {
  db : DB;
  live : bool;
  next : nat;
  trace : list Event
}.

(** A run-time panic of the Go code. *)
Inductive panic : Type :=
| IndexOutOfRange (i : Z) (n : Z)
| UnlockOfUnlockedMutex
| GoBytesLengthOutOfRange
| SliceBoundsOutOfRange (n : Z) (cap : Z).

(** How a call ends: it returns, it panics, it hands a destroyed engine
    instance to the C library (undefined behaviour), or it blocks for ever
    on the mutex. *)
Inductive Outcome (A : Type) : Type :=
| Done (a : A)
| Panic (p : panic)
| Undefined
| Blocked.
Global Arguments Done {_} _.
Global Arguments Panic {_} _.
Global Arguments Undefined {_}.
Global Arguments Blocked {_}.

(** Go code over the process state. *)
Definition M (A : Type) : Type := World → Outcome A * World.

#[global] Instance M_ret : MRet M := λ A a w, (Done a, w).

#[global] Instance M_bind : MBind M := λ A B f m w,
  match m w with
  | (Done a, w) => f a w
  | (Panic p, w) => (Panic p, w)
  | (Undefined, w) => (Undefined, w)
  | (Blocked, w) => (Blocked, w)
  end.

(** [panic(p)] *)
Definition throw {A} (p : panic) : M A := λ w, (Panic p, w).

(** [defer d] followed by [body], the rest of the function: [d] runs when
    [body] returns and also when it panics. *)
Definition defer_ {A} (d : M unit) (body : M A) : M A := λ w,
  match body w with
  | (Done a, w) => (_ ← d; mret a) w
  | (Panic p, w) => (_ ← d; throw p) w
  | (Undefined, w) => (Undefined, w)
  | (Blocked, w) => (Blocked, w)
  end.

Definition log (e : Event) (w : World) : World :=
  {| db := db w; live := live w; next := next w;
     trace := trace w ++ [e] |}.

Definition set_mu (m : RWMutex) (w : World) : World :=
  {| db := {| mu := m; c := c (db w); name := name (db w);
              opts := opts (db w); opened := opened (db w) |};
     live := live w; next := next w; trace := trace w |}.

(** [db.RLock()] *)
Definition RLock : M unit := λ w,
  if writer (mu (db w)) then (Blocked, w)
  else (Done (),
        log EvRLock
          (set_mu {| readers := S (readers (mu (db w))); writer := false |} w)).

(** [db.RUnlock()] *)
Definition RUnlock : M unit := λ w,
  match readers (mu (db w)) with
  | O => (Panic UnlockOfUnlockedMutex, w)
  | S n =>
      (Done (),
       log EvRUnlock
         (set_mu {| readers := n; writer := writer (mu (db w)) |} w))
  end.

(** [db.Lock()] *)
Definition Lock : M unit := λ w,
  if writer (mu (db w)) then (Blocked, w)
  else match readers (mu (db w)) with
       | O => (Done (), log EvLock (set_mu {| readers := O; writer := true |} w))
       | S _ => (Blocked, w)
       end.

(** [db.Unlock()] *)
Definition Unlock : M unit := λ w,
  if writer (mu (db w))
  then (Done (),
        log EvUnlock
          (set_mu {| readers := readers (mu (db w)); writer := false |} w))
  else (Panic UnlockOfUnlockedMutex, w).

(** Reading [db.opened], plainly or with [atomic.LoadInt32]. *)
Definition load_opened : M Z := λ w, (Done (opened (db w)), w).

(** Reading the pointer [db.c]. *)
Definition load_c : M nat := λ w, (Done (c (db w)), w).

(** Reading the field [db.name]. *)
Definition load_name : M string := λ w, (Done (name (db w)), w).

(** [atomic.StoreInt32(&db.opened, z)] *)
Definition store_opened (z : Z) : M unit := λ w,
  (Done (),
   {| db := {| mu := mu (db w); c := c (db w); name := name (db w);
               opts := opts (db w); opened := z |};
      live := live w; next := next w; trace := trace w |}).

(** [C.free(p)]: freeing NULL does nothing. *)
Definition C_free (p : cptr) : M unit := λ w, (Done (), log (EvFree p) w).

(** [C.malloc]: the buffer gets the next free address. *)
Definition alloc (e : nat → Event) : M cptr := λ w,
  (Done (HostBuf (next w)),
   {| db := db w; live := live w; next := S (next w);
      trace := trace w ++ [e (next w)] |}).

(** Modelled from the spec: [cByteSlice], declared elsewhere in the
    package, is the helper that gives the engine a buffer of its own with
    a copy of a host byte sequence ("any buffer the host allocates to pass
    into the engine must be released exactly once"). *)
Definition cByteSlice (b : slice Byte.byte) : M cptr :=
  alloc (λ a, EvCByteSlice a b).

(** [C.CString(s)] *)
Definition CString (s : string) : M cptr := alloc (λ a, EvCString a s).

(** [C.GoString(p)]; the empty string for NULL. *)
Definition GoString (p : option string) : string := default EmptyString p.

(** A pointer returned by the engine, as something to free. *)
Definition str_ptr (p : option string) : cptr :=
  match p with
  | None => NULL
  | Some s => EngineStr s
  end.
Definition buf_ptr (p : option bytes) : cptr :=
  match p with
  | None => NULL
  | Some b => EngineBuf b
  end.

(** [&l[0]] *)
Definition addr_of_first {A} (l : list A) : M unit :=
  match l with
  | [] => throw (IndexOutOfRange 0 0)
  | _ :: _ => mret ()
  end.

(** [l[i] = x] *)
Definition store_at {A} (l : list A) (i : nat) (x : A) : M (list A) :=
  match GoSlice.store l (Z.of_nat i) x with
  | Some l => mret l
  | None => throw (IndexOutOfRange (Z.of_nat i) (Z.of_nat (length l)))
  end.

(** [l[i]] *)
Definition load_at {A} (l : list A) (i : nat) : M A :=
  match GoSlice.index l (Z.of_nat i) with
  | Some x => mret x
  | None => throw (IndexOutOfRange (Z.of_nat i) (Z.of_nat (length l)))
  end.

(** [for i := 0; i < n; i++ { s = body i s }], from index [i]. *)
Fixpoint for_from {St} (i n : nat) (body : nat → St → M St) (s : St)
    : M St :=
  match n with
  | O => mret s
  | S n => s ← body i s; for_from (S i) n body s
  end.

(** [for _, x := range l { body x }] collecting what the body returns. *)
Fixpoint for_each {A B} (body : A → M B) (l : list A) : M (list B) :=
  match l with
  | [] => mret []
  | x :: l => y ← body x; ys ← for_each body l; mret (y :: ys)
  end.

(** An array of [n] cells holding [zero] after the engine wrote [l] to its
    first cells. *)
Definition written {A} (n : nat) (zero : A) (l : list A) : list A :=
  take n (l ++ replicate n zero).

(** [C.int(z)]: conversion to a 32-bit signed integer. *)
Definition C_int (z : Z) : Z := (z + 2 ^ 31) mod 2 ^ 32 - 2 ^ 31.

(** [C.GoBytes(p, n)] for a pointer to the buffer [b]: a copy of its
    first [n] bytes; the runtime panics ("gobytes: length out of range")
    when [n] is negative. *)
Definition GoBytes (b : bytes) (n : Z) : M bytes :=
  if decide (n < 0) then throw GoBytesLengthOutOfRange
  else mret (take (Z.to_nat n) b).

(** [uint64] addition. *)
Definition add64 (a b : Z) : Z := (a + b) mod 2 ^ 64.

(** [type Slice struct], as [NewSlice(data, size)] fills it; the type is
    declared elsewhere in the package. *)
Record Slice : Type := { sdata : option bytes; ssize : Z; freed : bool }.
Definition NewSlice (p : option bytes) : Slice :=
  {| sdata := p; ssize := len p; freed := false |}.

(** Iterators and snapshots, as their constructors fill them. *)
Record Iterator : Type := { it_c : nat }.
Definition NewNativeIterator (p : nat) : Iterator := {| it_c := p |}.
Record Snapshot : Type := { snap_c : nat; snap_cDb : nat }.
Definition NewNativeSnapshot (p cDb : nat) : Snapshot :=
  {| snap_c := p; snap_cDb := cDb |}.
Definition NewNativeColumnFamilyHandle (p : nat) : ColumnFamilyHandle := p.

(** The pair of bounds a native call reads for a [Range]. *)
Definition bounds (r : Range) : bytes * bytes := (data (Start r), data (Limit r)).

(** ** The DB wrapper: operations *)
Section operations.
(** The engine is an external collaborator: what a call returns is any
    function of the events so far and of the call. *)
Variable engine : list Event → NativeCall → Reply.

(** A call into the C library.  A call that receives [db.c] after the
    instance was destroyed is undefined behaviour; [rocksdb_close]
    destroys the instance. *)
Definition native (call : NativeCall) : M Reply := λ w,
  if uses_db call && negb (live w) then (Undefined, log (EvCall call) w)
  else (Done (engine (trace w) call),
        {| db := db w;
           live := match call with
                   | rocksdb_close => false
                   | _ => live w
                   end;
           next := next w;
           trace := trace w ++ [EvCall call] |}).

(** The idiom [if cErr != nil { defer C.free(cErr); return ...,
    errors.New(C.GoString(cErr)) }], followed by the rest [ok]. *)
Definition on_cErr {A} (cErr : option string) (fail : error → A)
    (ok : M A) : M A :=
  match cErr with
  | Some e =>
      defer_ (C_free (EngineStr e)) (mret (fail (errorsNew (GoString cErr))))
  | None => ok
  end.



(** [func OpenDbColumnFamilies] *)
Definition OpenDbColumnFamilies (opts : Options) (name : string)
    (cfNames : list string) (cfOpts : list Options)
    : M (option DB * slice ColumnFamilyHandle * option error) :=
  let numColumnFamilies := Z.of_nat (length cfNames) in
  if decide (numColumnFamilies ≠ Z.of_nat (length cfOpts)) then
    mret (None, None,
          Some (errorsNew
            "must provide the same number of column family names and options"))
  else
    cName ← CString name;
    defer_ (C_free cName) (
      cNames ← for_each CString cfNames;
      defer_ (_ ← for_each C_free cNames; mret ()) (
        let cOpts := cfOpts in
        let cHandles := replicate (length cfNames) 0%nat in
        addr_of_first cNames;;
        addr_of_first cOpts;;
        addr_of_first cHandles;;
        r ← native (rocksdb_open_column_families opts name
                      (C_int numColumnFamilies) cfNames cOpts);
        on_cErr (r_err r) (λ e, (None, None, Some e)) (
          let cHandles := written (length cfNames) 0%nat (r_ptrs r) in
          let cfHandles := NewNativeColumnFamilyHandle <$> cHandles in
          mret (Some {| mu := {| readers := 0; writer := false |};
                        c := r_ptr r; name := name; opts := opts;
                        opened := 1 |},
                Some cfHandles, None)))).

(** [func OpenDbForReadOnlyColumnFamilies] *)
Definition OpenDbForReadOnlyColumnFamilies (opts : Options) (name : string)
    (cfNames : list string) (cfOpts : list Options)
    (errorIfLogFileExist : bool)
    : M (option DB * slice ColumnFamilyHandle * option error) :=
  let numColumnFamilies := Z.of_nat (length cfNames) in
  if decide (numColumnFamilies ≠ Z.of_nat (length cfOpts)) then
    mret (None, None,
          Some (errorsNew
            "must provide the same number of column family names and options"))
  else
    cName ← CString name;
    defer_ (C_free cName) (
      cNames ← for_each CString cfNames;
      defer_ (_ ← for_each C_free cNames; mret ()) (
        let cOpts := cfOpts in
        let cHandles := replicate (length cfNames) 0%nat in
        addr_of_first cNames;;
        addr_of_first cOpts;;
        addr_of_first cHandles;;
        r ← native (rocksdb_open_for_read_only_column_families opts name
                      (C_int numColumnFamilies) cfNames cOpts
                      errorIfLogFileExist);
        on_cErr (r_err r) (λ e, (None, None, Some e)) (
          let cHandles := written (length cfNames) 0%nat (r_ptrs r) in
          let cfHandles := NewNativeColumnFamilyHandle <$> cHandles in
          mret (Some {| mu := {| readers := 0; writer := false |};
                        c := r_ptr r; name := name; opts := opts;
                        opened := 1 |},
                Some cfHandles, None)))).


(** [func (db *DB) UnsafeGetDB() unsafe.Pointer] *)
Definition UnsafeGetDB : M nat := load_c.

(** [func (db *DB) Name() string] *)
Definition Name : M string := load_name.

(** [func (db *DB) IsOpened() bool] *)
Definition IsOpened : M bool :=
  opened ← load_opened; mret (bool_decide (opened ≠ 0)).

(** [func (db *DB) Get] *)
Definition Get (opts : ReadOptions) (key : slice Byte.byte)
    : M (option Slice * option error) :=
  RLock;;
  opened ← load_opened;
  if decide (opened = 0) then
    RUnlock;; mret (None, Some errDBClosed)
  else
    r ← native (rocksdb_get opts (data key));
    RUnlock;;
    on_cErr (r_err r) (λ e, (None, Some e))
      (mret (Some (NewSlice (r_value r)), None)).

(** [func (db *DB) GetBytesNoLock] *)
Definition GetBytesNoLock (opts : ReadOptions) (key : slice Byte.byte)
    : M (slice Byte.byte * option error) :=
  opened ← load_opened;
  if decide (opened = 0) then mret (None, Some errDBClosed)
  else
    r ← native (rocksdb_get opts (data key));
    on_cErr (r_err r) (λ e, (None, Some e))
      match r_value r with
      | None => mret (None, None)
      | Some b =>
          defer_ (C_free (EngineBuf b)) (
            v ← GoBytes b (C_int (Z.of_nat (length b)));
            mret (Some v, None))
      end.

(** [func (db *DB) GetBytes] *)
Definition GetBytes (opts : ReadOptions) (key : slice Byte.byte)
    : M (slice Byte.byte * option error) :=
  RLock;;
  opened ← load_opened;
  if decide (opened = 0) then
    RUnlock;; mret (None, Some errDBClosed)
  else
    r ← native (rocksdb_get opts (data key));
    RUnlock;;
    on_cErr (r_err r) (λ e, (None, Some e))
      match r_value r with
      | None => mret (None, None)
      | Some b =>
          defer_ (C_free (EngineBuf b)) (
            v ← GoBytes b (C_int (Z.of_nat (length b)));
            mret (Some v, None))
      end.

(** [func (db *DB) GetCF] *)
Definition GetCF (opts : ReadOptions) (cf : ColumnFamilyHandle)
    (key : slice Byte.byte) : M (option Slice * option error) :=
  RLock;;
  opened ← load_opened;
  if decide (opened = 0) then
    RUnlock;; mret (None, Some errDBClosed)
  else
    r ← native (rocksdb_get_cf opts cf (data key));
    RUnlock;;
    on_cErr (r_err r) (λ e, (None, Some e))
      (mret (Some (NewSlice (r_value r)), None)).

(** The body of the loop that fails a batch read on a closed engine. *)
Definition fail_closed (cKeys : list cptr) (i : nat)
    (out : list (slice Byte.byte) * list (option error))
    : M (list (slice Byte.byte) * list (option error)) :=
  values ← store_at out.1 i None;
  errs ← store_at out.2 i (Some errDBClosed);
  p ← load_at cKeys i;
  C_free p;;
  mret (values, errs).

(** The body of the loop that converts the results of a batch read. *)
Definition convert_result (cKeys : list cptr)
    (cValues : list (option bytes)) (cErrs : list (option string)) (i : nat)
    (out : list (slice Byte.byte) * list (option error))
    : M (list (slice Byte.byte) * list (option error)) :=
  cErr ← load_at cErrs i;
  out ← match cErr with
        | None =>
            cValue ← load_at cValues i;
            match cValue with
            | None =>
                values ← store_at out.1 i None; mret (values, out.2)
            | Some b =>
                v ← GoBytes b (C_int (Z.of_nat (length b)));
                values ← store_at out.1 i (Some v);
                C_free (EngineBuf b);;
                mret (values, out.2)
            end
        | Some e =>
            values ← store_at out.1 i None;
            errs ← store_at out.2 i (Some (errorsNew (GoString cErr)));
            C_free (EngineStr e);;
            mret (values, errs)
        end;
  p ← load_at cKeys i;
  C_free p;;
  mret out.

(** [func (db *DB) MultiGetBytes]: the result is the content of the
    caller's [values] and [errs] after the call. *)
Definition MultiGetBytes (opts : ReadOptions)
    (keyList : list (slice Byte.byte))
    (values : list (slice Byte.byte)) (errs : list (option error))
    : M (list (slice Byte.byte) * list (option error)) :=
  let n := length keyList in
  cKeys ← for_each cByteSlice keyList;
  let cKeySizeList := len <$> keyList in
  RLock;;
  opened ← load_opened;
  if decide (opened = 1) then
    addr_of_first cKeys;;
    addr_of_first cKeySizeList;;
    addr_of_first (replicate n (@None bytes));;
    addr_of_first (replicate n 0);;
    addr_of_first (replicate n (@None string));;
    r ← native (rocksdb_multi_get opts (Z.of_nat n) (data <$> keyList));
    let cValues := written n None (r_values r) in
    let cErrs := written n None (r_errs r) in
    RUnlock;;
    for_from 0 n (convert_result cKeys cValues cErrs) (values, errs)
  else
    out ← for_from 0 n (fail_closed cKeys) (values, errs);
    RUnlock;;
    mret out.

(** [func (db *DB) Put] *)
Definition Put (opts : WriteOptions) (key value : slice Byte.byte)
    : M (option error) :=
  r ← native (rocksdb_put opts (data key) (data value));
  on_cErr (r_err r) Some (mret None).

(** [func (db *DB) PutCF] *)
Definition PutCF (opts : WriteOptions) (cf : ColumnFamilyHandle)
    (key value : slice Byte.byte) : M (option error) :=
  r ← native (rocksdb_put_cf opts cf (data key) (data value));
  on_cErr (r_err r) Some (mret None).

(** [func (db *DB) Delete] *)
Definition Delete (opts : WriteOptions) (key : slice Byte.byte)
    : M (option error) :=
  r ← native (rocksdb_delete opts (data key));
  on_cErr (r_err r) Some (mret None).

(** [func (db *DB) DeleteCF] *)
Definition DeleteCF (opts : WriteOptions) (cf : ColumnFamilyHandle)
    (key : slice Byte.byte) : M (option error) :=
  r ← native (rocksdb_delete_cf opts cf (data key));
  on_cErr (r_err r) Some (mret None).

(** [func (db *DB) Merge] *)
Definition Merge (opts : WriteOptions) (key value : slice Byte.byte)
    : M (option error) :=
  RLock;;
  opened ← load_opened;
  if decide (opened = 0) then
    RUnlock;; mret (Some errDBClosed)
  else
    r ← native (rocksdb_merge opts (data key) (data value));
    RUnlock;;
    on_cErr (r_err r) Some (mret None).

(** [func (db *DB) MergeCF] *)
Definition MergeCF (opts : WriteOptions) (cf : ColumnFamilyHandle)
    (key value : slice Byte.byte) : M (option error) :=
  RLock;;
  opened ← load_opened;
  if decide (opened = 0) then
    RUnlock;; mret (Some errDBClosed)
  else
    r ← native (rocksdb_merge_cf opts cf (data key) (data value));
    RUnlock;;
    on_cErr (r_err r) Some (mret None).

(** [func (db *DB) Write] *)
Definition Write (opts : WriteOptions) (batch : WriteBatch)
    : M (option error) :=
  r ← native (rocksdb_write opts batch);
  on_cErr (r_err r) Some (mret None).

(** [func (db *DB) NewIterator] *)
Definition NewIterator (opts : ReadOptions)
    : M (option Iterator * option error) :=
  opened ← load_opened;
  if decide (opened = 0) then mret (None, Some errDBClosed)
  else
    r ← native (rocksdb_create_iterator opts);
    mret (Some (NewNativeIterator (r_ptr r)), None).

(** [func (db *DB) NewIteratorCF] *)
Definition NewIteratorCF (opts : ReadOptions) (cf : ColumnFamilyHandle)
    : M (option Iterator * option error) :=
  opened ← load_opened;
  if decide (opened = 0) then mret (None, Some errDBClosed)
  else
    r ← native (rocksdb_create_iterator_cf opts cf);
    mret (Some (NewNativeIterator (r_ptr r)), None).

(** [func (db *DB) NewSnapshot] *)
Definition NewSnapshot : M (option Snapshot * option error) :=
  opened ← load_opened;
  if decide (opened = 0) then mret (None, Some errDBClosed)
  else
    r ← native rocksdb_create_snapshot;
    cDb ← load_c;
    mret (Some (NewNativeSnapshot (r_ptr r) cDb), None).

(** [func (db *DB) GetProperty] *)
Definition GetProperty (propName : string) : M string :=
  cprop ← CString propName;
  defer_ (C_free cprop) (
    RLock;;
    opened ← load_opened;
    if decide (opened = 0) then
      RUnlock;; mret EmptyString
    else
      r ← native (rocksdb_property_value propName);
      RUnlock;;
      defer_ (C_free (str_ptr (r_str r))) (mret (GoString (r_str r)))).

(** [func (db *DB) GetPropertyCF] *)
Definition GetPropertyCF (propName : string) (cf : ColumnFamilyHandle)
    : M string :=
  cProp ← CString propName;
  defer_ (C_free cProp) (
    RLock;;
    opened ← load_opened;
    if decide (opened = 0) then
      RUnlock;; mret EmptyString
    else
      r ← native (rocksdb_property_value_cf cf propName);
      RUnlock;;
      defer_ (C_free (str_ptr (r_str r))) (mret (GoString (r_str r)))).

(** [func (db *DB) CreateColumnFamily] *)
Definition CreateColumnFamily (opts : Options) (name : string)
    : M (option ColumnFamilyHandle * option error) :=
  cName ← CString name;
  defer_ (C_free cName) (
    r ← native (rocksdb_create_column_family opts name);
    on_cErr (r_err r) (λ e, (None, Some e))
      (mret (Some (NewNativeColumnFamilyHandle (r_ptr r)), None))).

(** [func (db *DB) DropColumnFamily] *)
Definition DropColumnFamily (cf : ColumnFamilyHandle) : M (option error) :=
  r ← native (rocksdb_drop_column_family cf);
  on_cErr (r_err r) Some (mret None).

(** The loop [for i, r := range ranges] that copies the bounds of every
    range into C buffers. *)
Definition copy_bounds (r : Range) : M (cptr * cptr) :=
  cStart ← cByteSlice (Start r);
  cLimit ← cByteSlice (Limit r);
  mret (cStart, cLimit).

(** The loop that frees [cStarts[i]] and [cLimits[i]]. *)
Definition free_bounds (p : cptr * cptr) : M unit :=
  C_free p.1;; C_free p.2.

(** [func (db *DB) GetApproximateSizes] *)
Definition GetApproximateSizes (ranges : list Range) (includeMem : bool)
    : M (slice Z) :=
  let n := length ranges in
  let sizes := replicate n 0 in
  if decide (n = 0%nat) then mret (Some sizes)
  else
    RLock;;
    opened ← load_opened;
    if decide (opened = 0) then
      RUnlock;; mret None
    else
      cBounds ← for_each copy_bounds ranges;
      r ← native (rocksdb_approximate_sizes (C_int (Z.of_nat n))
                    (bounds <$> ranges));
      let sizes := written n 0 (r_sizes r) in
      memSizes ← (if includeMem then
                    r ← native (rocksdb_approximate_memtable_sizes
                                  (C_int (Z.of_nat n)) (bounds <$> ranges));
                    mret (written n 0 (r_sizes r))
                  else mret (replicate n 0));
      RUnlock;;
      for_each free_bounds cBounds;;
      mret (Some (if includeMem then zip_with add64 sizes memSizes
                  else sizes)).

(** [func (db *DB) GetApproximateSizesCF] *)
Definition GetApproximateSizesCF (cf : ColumnFamilyHandle)
    (ranges : list Range) (includeMem : bool) : M (slice Z) :=
  let n := length ranges in
  let sizes := replicate n 0 in
  if decide (n = 0%nat) then mret (Some sizes)
  else
    RLock;;
    opened ← load_opened;
    if decide (opened = 0) then
      RUnlock;; mret None
    else
      cBounds ← for_each copy_bounds ranges;
      r ← native (rocksdb_approximate_sizes_cf cf (C_int (Z.of_nat n))
                    (bounds <$> ranges));
      let sizes := written n 0 (r_sizes r) in
      memSizes ← (if includeMem then
                    r ← native (rocksdb_approximate_memtable_sizes_cf cf
                                  (C_int (Z.of_nat n)) (bounds <$> ranges));
                    mret (written n 0 (r_sizes r))
                  else mret (replicate n 0));
      RUnlock;;
      for_each free_bounds cBounds;;
      mret (Some (if includeMem then zip_with add64 sizes memSizes
                  else sizes)).

(** [func (db *DB) GetApproximateKeyNum] *)
Definition GetApproximateKeyNum (ranges : list Range) : M Z :=
  let n := length ranges in
  if decide (n = 0%nat) then mret 0
  else
    RLock;;
    opened ← load_opened;
    if decide (opened = 0) then
      RUnlock;; mret 0
    else
      cBounds ← for_each copy_bounds ranges;
      r ← native (rocksdb_get_table_property_keynum_in_ranges
                    (C_int (Z.of_nat n)) (bounds <$> ranges));
      RUnlock;;
      for_each free_bounds cBounds;;
      mret (r_num r mod 2 ^ 64).

(** The body of the loop over the files of a livefiles object: the two
    keys are copied with [C.GoBytes], each with its size as a [C.int]. *)
Definition read_live_file (f : LiveFileMetadata) : M LiveFileMetadata :=
  smallest ← GoBytes (SmallestKey f)
               (C_int (Z.of_nat (length (SmallestKey f))));
  largest ← GoBytes (LargestKey f)
              (C_int (Z.of_nat (length (LargestKey f))));
  mret {| lfName := lfName f; lfLevel := lfLevel f; lfSize := lfSize f;
          SmallestKey := smallest; LargestKey := largest |}.

(** [func (db *DB) GetLiveFilesMetaData]; the accessors of the livefiles
    object ([rocksdb_livefiles_count], [_name], [_level], ...) read the
    content [r_files] of the object that [rocksdb_livefiles] returned. *)
Definition GetLiveFilesMetaData : M (slice LiveFileMetadata) :=
  RLock;;
  opened ← load_opened;
  if decide (opened = 0) then
    RUnlock;; mret None
  else
    r ← native rocksdb_livefiles;
    defer_ (_ ← native rocksdb_livefiles_destroy; mret ()) (
      liveFiles ← for_each read_live_file (r_files r);
      RUnlock;;
      mret (Some liveFiles)).

(** [func (db *DB) CompactRange] *)
Definition CompactRange (r : Range) : M unit :=
  RLock;;
  opened ← load_opened;
  if decide (opened = 0) then
    RUnlock;; mret ()
  else if bool_decide (Start r = None) && bool_decide (Limit r = None) then
    native (rocksdb_compact_range None None);;
    RUnlock
  else
    cStart ← cByteSlice (Start r);
    cLimit ← cByteSlice (Limit r);
    defer_ (C_free cStart) (
      defer_ (C_free cLimit) (
        native (rocksdb_compact_range (Some (data (Start r)))
                  (Some (data (Limit r))));;
        RUnlock)).

(** [func (db *DB) CompactRangeCF] *)
Definition CompactRangeCF (cf : ColumnFamilyHandle) (r : Range) : M unit :=
  RLock;;
  opened ← load_opened;
  if decide (opened = 0) then
    RUnlock;; mret ()
  else
    cStart ← cByteSlice (Start r);
    cLimit ← cByteSlice (Limit r);
    defer_ (C_free cStart) (
      defer_ (C_free cLimit) (
        native (rocksdb_compact_range_cf cf (data (Start r))
                  (data (Limit r)));;
        RUnlock)).

(** [func (db *DB) Flush] *)
Definition Flush (opts : FlushOptions) : M (option error) :=
  RLock;;
  opened ← load_opened;
  if decide (opened = 0) then
    RUnlock;; mret (Some errDBClosed)
  else
    r ← native (rocksdb_flush opts);
    RUnlock;;
    on_cErr (r_err r) Some (mret None).

(** [func (db *DB) DisableFileDeletions] *)
Definition DisableFileDeletions : M (option error) :=
  RLock;;
  opened ← load_opened;
  if decide (opened = 0) then
    RUnlock;; mret (Some errDBClosed)
  else
    r ← native rocksdb_disable_file_deletions;
    RUnlock;;
    on_cErr (r_err r) Some (mret None).

(** [func (db *DB) EnableFileDeletions] *)
Definition EnableFileDeletions (force : bool) : M (option error) :=
  RLock;;
  opened ← load_opened;
  if decide (opened = 0) then
    RUnlock;; mret (Some errDBClosed)
  else
    r ← native (rocksdb_enable_file_deletions force);
    RUnlock;;
    on_cErr (r_err r) Some (mret None).

(** [func (db *DB) DeleteFilesInRange] *)
Definition DeleteFilesInRange (r : Range) : M (option error) :=
  rp ← native (rocksdb_delete_file_in_range (data (Start r))
                 (data (Limit r)));
  on_cErr (r_err rp) Some (mret None).

(** [func (db *DB) DeleteFile] *)
Definition DeleteFile (name : string) : M unit :=
  cName ← CString name;
  defer_ (C_free cName) (
    RLock;;
    opened ← load_opened;
    if decide (opened = 0) then
      RUnlock;; mret ()
    else
      native (rocksdb_delete_file name);;
      RUnlock).

(** [func (db *DB) Shutdown] *)
Definition Shutdown : M unit :=
  RLock;;
  defer_ RUnlock (
    opened ← load_opened;
    if decide (opened = 0) then mret ()
    else
      native rocksdb_shutdown;;
      mret ()).

(** [func (db *DB) Close] *)
Definition Close : M unit :=
  Lock;;
  native rocksdb_close;;
  store_opened 0;;
  Unlock.



End operations.

(** ** The methods of [*DB] as one interface *)

(** A call of a method with its arguments. *)
Inductive Op : Type :=
| OUnsafeGetDB
| OName
| OIsOpened
| OGet (opts : ReadOptions) (key : slice Byte.byte)
| OGetBytesNoLock (opts : ReadOptions) (key : slice Byte.byte)
| OGetBytes (opts : ReadOptions) (key : slice Byte.byte)
| OGetCF (opts : ReadOptions) (cf : ColumnFamilyHandle)
    (key : slice Byte.byte)
| OMultiGetBytes (opts : ReadOptions) (keyList : list (slice Byte.byte))
    (values : list (slice Byte.byte)) (errs : list (option error))
| OPut (opts : WriteOptions) (key value : slice Byte.byte)
| OPutCF (opts : WriteOptions) (cf : ColumnFamilyHandle)
    (key value : slice Byte.byte)
| ODelete (opts : WriteOptions) (key : slice Byte.byte)
| ODeleteCF (opts : WriteOptions) (cf : ColumnFamilyHandle)
    (key : slice Byte.byte)
| OMerge (opts : WriteOptions) (key value : slice Byte.byte)
| OMergeCF (opts : WriteOptions) (cf : ColumnFamilyHandle)
    (key value : slice Byte.byte)
| OWrite (opts : WriteOptions) (batch : WriteBatch)
| ONewIterator (opts : ReadOptions)
| ONewIteratorCF (opts : ReadOptions) (cf : ColumnFamilyHandle)
| ONewSnapshot
| OGetProperty (propName : string)
| OGetPropertyCF (propName : string) (cf : ColumnFamilyHandle)
| OCreateColumnFamily (opts : Options) (name : string)
| ODropColumnFamily (cf : ColumnFamilyHandle)
| OGetApproximateSizes (ranges : list Range) (includeMem : bool)
| OGetApproximateSizesCF (cf : ColumnFamilyHandle) (ranges : list Range)
    (includeMem : bool)
| OGetApproximateKeyNum (ranges : list Range)
| OGetLiveFilesMetaData
| OCompactRange (r : Range)
| OCompactRangeCF (cf : ColumnFamilyHandle) (r : Range)
| OFlush (opts : FlushOptions)
| ODisableFileDeletions
| OEnableFileDeletions (force : bool)
| ODeleteFilesInRange (r : Range)
| ODeleteFile (name : string)
| OShutdown
| OClose.

(** What a method returns, by the shape of its Go result list. *)
Inductive Result : Type :=
| RUnit
| RPtr (p : nat)
| RBool (b : bool)
| RErr (err : option error)
| RSlice (s : option Slice) (err : option error)
| RBytes (b : slice Byte.byte) (err : option error)
| RMulti (values : list (slice Byte.byte)) (errs : list (option error))
| RIter (it : option Iterator) (err : option error)
| RSnap (s : option Snapshot) (err : option error)
| RCF (cf : option ColumnFamilyHandle) (err : option error)
| RString (s : string)
| RSizes (sizes : slice Z)
| RNum (n : Z)
| RFiles (files : slice LiveFileMetadata).

(** The [error] component of a result: [None] when the method's result
    list has no [error], else [Some] of the returned error ([Some None]
    for a nil error). *)
Definition error_of (r : Result) : option (option error) :=
  match r with
  | RErr e | RSlice _ e | RBytes _ e | RIter _ e | RSnap _ e | RCF _ e =>
      Some e
  | _ => None
  end.

(** Running a method call. *)
Definition run (engine : list Event → NativeCall → Reply) (op : Op)
    : M Result :=
  match op with
  | OUnsafeGetDB => p ← UnsafeGetDB; mret (RPtr p)
  | OName => s ← Name; mret (RString s)
  | OIsOpened => b ← IsOpened; mret (RBool b)
  | OGet o k => p ← Get engine o k; mret (RSlice p.1 p.2)
  | OGetBytesNoLock o k => p ← GetBytesNoLock engine o k; mret (RBytes p.1 p.2)
  | OGetBytes o k => p ← GetBytes engine o k; mret (RBytes p.1 p.2)
  | OGetCF o cf k => p ← GetCF engine o cf k; mret (RSlice p.1 p.2)
  | OMultiGetBytes o ks vs es =>
      p ← MultiGetBytes engine o ks vs es; mret (RMulti p.1 p.2)
  | OPut o k v => e ← Put engine o k v; mret (RErr e)
  | OPutCF o cf k v => e ← PutCF engine o cf k v; mret (RErr e)
  | ODelete o k => e ← Delete engine o k; mret (RErr e)
  | ODeleteCF o cf k => e ← DeleteCF engine o cf k; mret (RErr e)
  | OMerge o k v => e ← Merge engine o k v; mret (RErr e)
  | OMergeCF o cf k v => e ← MergeCF engine o cf k v; mret (RErr e)
  | OWrite o b => e ← Write engine o b; mret (RErr e)
  | ONewIterator o => p ← NewIterator engine o; mret (RIter p.1 p.2)
  | ONewIteratorCF o cf => p ← NewIteratorCF engine o cf; mret (RIter p.1 p.2)
  | ONewSnapshot => p ← NewSnapshot engine; mret (RSnap p.1 p.2)
  | OGetProperty n => s ← GetProperty engine n; mret (RString s)
  | OGetPropertyCF n cf => s ← GetPropertyCF engine n cf; mret (RString s)
  | OCreateColumnFamily o n =>
      p ← CreateColumnFamily engine o n; mret (RCF p.1 p.2)
  | ODropColumnFamily cf => e ← DropColumnFamily engine cf; mret (RErr e)
  | OGetApproximateSizes rs m =>
      s ← GetApproximateSizes engine rs m; mret (RSizes s)
  | OGetApproximateSizesCF cf rs m =>
      s ← GetApproximateSizesCF engine cf rs m; mret (RSizes s)
  | OGetApproximateKeyNum rs => n ← GetApproximateKeyNum engine rs; mret (RNum n)
  | OGetLiveFilesMetaData => l ← GetLiveFilesMetaData engine; mret (RFiles l)
  | OCompactRange r => CompactRange engine r;; mret RUnit
  | OCompactRangeCF cf r => CompactRangeCF engine cf r;; mret RUnit
  | OFlush o => e ← Flush engine o; mret (RErr e)
  | ODisableFileDeletions => e ← DisableFileDeletions engine; mret (RErr e)
  | OEnableFileDeletions f => e ← EnableFileDeletions engine f; mret (RErr e)
  | ODeleteFilesInRange r => e ← DeleteFilesInRange engine r; mret (RErr e)
  | ODeleteFile n => DeleteFile engine n;; mret RUnit
  | OShutdown => Shutdown engine;; mret RUnit
  | OClose => Close engine;; mret RUnit
  end.

(** ** The package functions as one interface *)






(** The native calls in a trace. *)
Definition calls (t : list Event) : list NativeCall :=
  omap (λ e, match e with EvCall call => Some call | _ => None end) t.

(** A handle as the open functions return it, in a process that has done
    nothing else: open, the engine instance alive, the mutex free. *)
Definition fresh (p : nat) (name : string) (opts : Options) : World :=
  {| db := {| mu := {| readers := 0%nat; writer := false |}; c := p;
              name := name; opts := opts; opened := 1 |};
     live := true; next := 0%nat; trace := [] |}.

End DB.

(** ** Classes of methods *)

(** The data operations that return [errDBClosed] from behind the read
    lock. *)
Definition guarded_data_op (op : DB.Op) : bool :=
  match op with
  | DB.OGet _ _ | DB.OGetBytes _ _ | DB.OGetCF _ _ _ | DB.OMerge _ _ _
  | DB.OFlush _ | DB.ODisableFileDeletions | DB.OEnableFileDeletions _ => true
  | _ => false
  end.

(** The write operations whose body starts with the engine call. *)
Definition direct_write_op (op : DB.Op) : bool :=
  match op with
  | DB.OPut _ _ _ | DB.ODelete _ _ | DB.OWrite _ _ => true
  | _ => false
  end.

(** A method calls the engine directly: whatever the state of the handle,
    the first thing it does is an engine call on [db.c], and the error it
    returns is never [errDBClosed]. *)
Definition calls_engine_directly
    (engine : list DB.Event → DB.NativeCall → DB.Reply) (op : DB.Op) : Prop :=
  ∀ w : DB.World, ∃ o w' call rest,
    DB.run engine op w = (o, w')
    ∧ DB.trace w' = DB.trace w ++ DB.EvCall call :: rest
    ∧ DB.uses_db call = true
    ∧ ∀ r, o = DB.Done r → DB.error_of r ≠ Some (Some DB.errDBClosed).

(** What a method that tests [db.opened] returns when it finds 0; [None]
    for the methods that do not test it, and for the batch read, whose
    result depends on the caller's slices. *)
Definition closed_result (op : DB.Op) : option DB.Result :=
  match op with
  | DB.OGet _ _ | DB.OGetCF _ _ _ =>
      Some (DB.RSlice None (Some DB.errDBClosed))
  | DB.OGetBytesNoLock _ _ | DB.OGetBytes _ _ =>
      Some (DB.RBytes None (Some DB.errDBClosed))
  | DB.OMerge _ _ _ | DB.OMergeCF _ _ _ _ | DB.OFlush _
  | DB.ODisableFileDeletions | DB.OEnableFileDeletions _ =>
      Some (DB.RErr (Some DB.errDBClosed))
  | DB.ONewIterator _ | DB.ONewIteratorCF _ _ =>
      Some (DB.RIter None (Some DB.errDBClosed))
  | DB.ONewSnapshot => Some (DB.RSnap None (Some DB.errDBClosed))
  | DB.OGetProperty _ | DB.OGetPropertyCF _ _ => Some (DB.RString EmptyString)
  | DB.OGetApproximateSizes rs _ | DB.OGetApproximateSizesCF _ rs _ =>
      Some (DB.RSizes (match rs with [] => Some [] | _ :: _ => None end))
  | DB.OGetApproximateKeyNum _ => Some (DB.RNum 0)
  | DB.OGetLiveFilesMetaData => Some (DB.RFiles None)
  | DB.OCompactRange _ | DB.OCompactRangeCF _ _ | DB.ODeleteFile _
  | DB.OShutdown => Some DB.RUnit
  | _ => None
  end.









(** An engine that reports no error and returns null pointers. *)
Definition silent_reply : DB.Reply :=
  {| DB.r_value := None; DB.r_err := None; DB.r_values := [];
     DB.r_errs := []; DB.r_sizes := []; DB.r_num := 0; DB.r_str := None;
     DB.r_ptr := 0%nat; DB.r_ptrs := []; DB.r_files := [];
     DB.r_names := [] |}.
Definition silent_engine (t : list DB.Event) (call : DB.NativeCall)
    : DB.Reply := silent_reply.

(** A handle as Open returns it. *)
Definition open_handle : DB.World := DB.fresh 1 "testdb" 0%nat.

(** A handle after Close, in a process that has done nothing else. *)
Definition closed_handle : DB.World :=
  {| DB.db := {| DB.mu := {| DB.readers := 0; DB.writer := false |};
                 DB.c := 1%nat; DB.name := "testdb"; DB.opts := 0%nat;
                 DB.opened := 0 |};
     DB.live := false; DB.next := 0%nat; DB.trace := [] |}.

(** ** Frame conditions *)

(** The part of the state that only Close may change: the open flag and
    the existence of the engine instance. *)
Definition stable (w w' : DB.World) : Prop :=
  DB.opened (DB.db w') = DB.opened (DB.db w) ∧ DB.live w' = DB.live w.

(** A computation that leaves that part alone, however it ends. *)
Definition preserves {A} (m : DB.M A) : Prop :=
  ∀ w o w', m w = (o, w') → stable w w'.

(** A computation that returns from every state: no panic, no undefined
    behaviour, no wait for the mutex. *)
Definition returns {A} (m : DB.M A) : Prop :=
  ∀ w, ∃ a w', m w = (DB.Done a, w').

(** [m] returns from [w], with a result and a state in [Q]. *)
Definition wp {A} (m : DB.M A) (w : DB.World) (Q : A → DB.World → Prop)
    : Prop :=
  ∃ a w', m w = (DB.Done a, w') ∧ Q a w'.

(** The state after some more events. *)
Definition logs (es : list DB.Event) (w : DB.World) : DB.World :=
  {| DB.db := DB.db w; DB.live := DB.live w; DB.next := DB.next w;
     DB.trace := DB.trace w ++ es |}.

(** The message of the error for mismatched column family lists. *)
Definition cf_count_mismatch : DB.error :=
  DB.errorsNew
    "must provide the same number of column family names and options".

(** ** Sample inputs *)

(** A filter that rewrites every value to "v2", registered first. *)
Definition rewriting_filter : Filter.CompactionFilter :=
  {| Filter.Filter := λ _ _ _, (false, Some ["v"%byte; "2"%byte]);
     Filter.Name := "f1" |}.

(** A batch of two keys with the caller's two output slices. *)
Definition two_keys : list (slice Byte.byte) :=
  [Some ["a"%byte]; Some ["b"%byte]].
Definition two_values : list (slice Byte.byte) := [Some ["x"%byte]; None].
Definition two_errs : list (option DB.error) := [None; None].

(** ** More notions for the methods *)

(** The events of a reader: everything but the write lock and the call
    that destroys the engine instance. *)
Definition reader_event (e : DB.Event) : bool :=
  match e with
  | DB.EvLock | DB.EvUnlock | DB.EvCall DB.rocksdb_close => false
  | _ => true
  end.

(** A computation that only appends reader events to the trace, however
    it ends. *)
Definition reader_only {A} (m : DB.M A) : Prop :=
  ∀ w o w', m w = (o, w') →
    ∃ es, DB.trace w' = DB.trace w ++ es ∧ forallb reader_event es = true.

(** The handle [w'] is the handle [w] with [d] more read locks held: the
    same pointer, name and options, the write lock as it was. *)
Definition same_handle (d : Z) (w w' : DB.World) : Prop :=
  Z.of_nat (DB.readers (DB.mu (DB.db w')))
    = Z.of_nat (DB.readers (DB.mu (DB.db w))) + d
  ∧ DB.writer (DB.mu (DB.db w')) = DB.writer (DB.mu (DB.db w))
  ∧ DB.c (DB.db w') = DB.c (DB.db w)
  ∧ DB.name (DB.db w') = DB.name (DB.db w)
  ∧ DB.opts (DB.db w') = DB.opts (DB.db w).

(** A computation that, when it returns, holds [d] more read locks. *)
Definition shifts {A} (m : DB.M A) (d : Z) : Prop :=
  ∀ w a w', m w = (DB.Done a, w') → same_handle d w w'.

(** The methods that pass [db.c] to the engine without testing
    [db.opened]. *)
Definition unguarded_op (op : DB.Op) : bool :=
  match op with
  | DB.OPut _ _ _ | DB.OPutCF _ _ _ _ | DB.ODelete _ _ | DB.ODeleteCF _ _ _
  | DB.OWrite _ _ | DB.OCreateColumnFamily _ _ | DB.ODropColumnFamily _
  | DB.ODeleteFilesInRange _ => true
  | _ => false
  end.

(** The methods that take the read lock. *)
Definition locking_op (op : DB.Op) : bool :=
  match op with
  | DB.OGet _ _ | DB.OGetBytes _ _ | DB.OGetCF _ _ _
  | DB.OMultiGetBytes _ _ _ _ | DB.OMerge _ _ _ | DB.OMergeCF _ _ _ _
  | DB.OGetProperty _ | DB.OGetPropertyCF _ _
  | DB.OGetApproximateSizes _ _ | DB.OGetApproximateSizesCF _ _ _
  | DB.OGetApproximateKeyNum _ | DB.OGetLiveFilesMetaData
  | DB.OCompactRange _ | DB.OCompactRangeCF _ _ | DB.OFlush _
  | DB.ODisableFileDeletions | DB.OEnableFileDeletions _
  | DB.ODeleteFile _ | DB.OShutdown => true
  | _ => false
  end.

(** What a method that takes the read lock returns when it returns
    before taking it: the range queries, for no ranges. *)
Definition returns_before_lock (op : DB.Op) : option DB.Result :=
  match op with
  | DB.OGetApproximateSizes [] _ | DB.OGetApproximateSizesCF _ [] _ =>
      Some (DB.RSizes (Some []))
  | DB.OGetApproximateKeyNum [] => Some (DB.RNum 0)
  | _ => None
  end.

(** The events of [cByteSlice] and [C.CString]. *)
Definition copy_event (e : DB.Event) : bool :=
  match e with
  | DB.EvCByteSlice _ _ | DB.EvCString _ _ => true
  | _ => false
  end.

(** The methods that test [db.opened] without taking the lock. *)
Definition lock_free_guarded_op (op : DB.Op) : bool :=
  match op with
  | DB.OGetBytesNoLock _ _ | DB.ONewIterator _ | DB.ONewIteratorCF _ _
  | DB.ONewSnapshot => true
  | _ => false
  end.

(** The events of the mutex. *)
Definition lock_event (e : DB.Event) : bool :=
  match e with
  | DB.EvRLock | DB.EvRUnlock | DB.EvLock | DB.EvUnlock => true
  | _ => false
  end.

(** What a batch read leaves in [values[i]], from what the engine left
    in [cValues[i]] and [cErrs[i]]. *)
Definition read_value (cValue : option bytes) (cErr : option string)
    : slice Byte.byte :=
  match cErr, cValue with
  | None, Some b => Some b
  | _, _ => None
  end.

(** What a batch read leaves in [errs[i]], from [cErrs[i]] and what the
    caller had there. *)
Definition read_err (cErr : option string) (old : option DB.error)
    : option DB.error :=
  match cErr with
  | None => old
  | Some e => Some (DB.errorsNew e)
  end.

(** The engine's buffer that a batch read frees for one key. *)
Definition read_frees (cValue : option bytes) (cErr : option string)
    : list DB.Event :=
  match cErr, cValue with
  | None, None => []
  | None, Some b => [DB.EvFree (DB.EngineBuf b)]
  | Some e, _ => [DB.EvFree (DB.EngineStr e)]
  end.

(** The events that free memory. *)
Definition free_event (e : DB.Event) : bool :=
  match e with
  | DB.EvFree _ => true
  | _ => false
  end.

(** The addresses of the C buffers that a trace allocates, and of those
    it frees, in order. *)
Definition host_allocs (t : list DB.Event) : list nat :=
  omap (λ e, match e with
             | DB.EvCByteSlice a _ | DB.EvCString a _ => Some a
             | _ => None
             end) t.
Definition host_frees (t : list DB.Event) : list nat :=
  omap (λ e, match e with
             | DB.EvFree (DB.HostBuf a) => Some a
             | _ => None
             end) t.

(** The pointers of a list of pairs of bounds, in the order of their
    allocation. *)
Definition bound_ptrs (ps : list (DB.cptr * DB.cptr)) : list DB.cptr :=
  ps ≫= λ p, [p.1; p.2].

(** ** Registering several filters *)

(** What the registry stores for a filter. *)
Definition wrap_filter (f : Filter.CompactionFilter) : Filter.iface :=
  Filter.iwrapper {| Filter.name := Filter.Name f; Filter.filter := f |}.

(** A sequence of [registerCompactionFilter] calls, collecting the
    returned indices. *)
Fixpoint registerAll (reg : Filter.registry)
    (fs : list Filter.CompactionFilter) : option (list Z * Filter.registry) :=
  match fs with
  | [] => Some ([], reg)
  | f :: fs =>
      '(idx, reg) ← Filter.registerCompactionFilter reg f;
      '(idxs, reg) ← registerAll reg fs;
      Some (idx :: idxs, reg)
  end.

(** What the shim returns and leaves in the output cells for a filter's
    answer. *)
Definition translated {Cchar : Type} (byteToChar : slice Byte.byte → Cchar)
    (answer : bool * slice Byte.byte) (out : Filter.outputs Cchar)
    : Z * Filter.outputs Cchar :=
  match answer with
  | (true, _) => (1, out)
  | (false, None) => (0, out)
  | (false, Some b) =>
      (0, {| Filter.cNewVal := byteToChar (Some b);
             Filter.cNewValLen := Z.of_nat (length b);
             Filter.cValChanged := 1 |})
  end.

(** ** More sample inputs *)

(** A handle whose mutex a Close holds. *)
Definition closing_handle : DB.World :=
  {| DB.db := {| DB.mu := {| DB.readers := 0; DB.writer := true |};
                 DB.c := 1%nat; DB.name := "testdb"; DB.opts := 0%nat;
                 DB.opened := 1 |};
     DB.live := true; DB.next := 0%nat; DB.trace := [] |}.

(** An engine that finds the value "1" for every key. *)
Definition value_engine (t : list DB.Event) (call : DB.NativeCall)
    : DB.Reply :=
  {| DB.r_value := Some ["1"%byte]; DB.r_err := None; DB.r_values := [];
     DB.r_errs := []; DB.r_sizes := []; DB.r_num := 0; DB.r_str := None;
     DB.r_ptr := 0%nat; DB.r_ptrs := []; DB.r_files := [];
     DB.r_names := [] |}.


(** The whole key space. *)
Definition whole_range : DB.Range := {| DB.Start := None; DB.Limit := None |}.

(** A registry that holds the identity filter at index 0. *)
Definition identity_registry : Filter.registry :=
  COWList.mk [[]; [wrap_filter (Filter.NewNativeCompactionFilter ())]] 1.

(** * Properties *)

(** ** Slice primitives *)
Section goslice_facts.
Context {A : Type}.
Implicit Types l dst src : list A.

Lemma make_succ (zero : A) (n : nat) :
  GoSlice.make zero (Z.of_nat n + 1) = Some (replicate n zero ++ [zero]).
Proof.
  unfold GoSlice.make. rewrite decide_True by lia. f_equal.
  replace (Z.to_nat (Z.of_nat n + 1)) with (n + 1)%nat by lia.
  by rewrite replicate_add.
Qed.

Lemma copy_into_longer dst src :
  (length src ≤ length dst)%nat →
  GoSlice.copy dst src = src ++ drop (length src) dst.
Proof. intros Hle. unfold GoSlice.copy. by rewrite take_ge. Qed.

Lemma copy_length dst src : length (GoSlice.copy dst src) = length dst.
Proof.
  unfold GoSlice.copy. rewrite length_app, length_take, length_drop. lia.
Qed.

Lemma store_last l (x y : A) :
  GoSlice.store (l ++ [y]) (Z.of_nat (length l)) x = Some (l ++ [x]).
Proof.
  unfold GoSlice.store. rewrite length_app. simpl.
  rewrite decide_True by lia. rewrite Nat2Z.id. f_equal.
  rewrite insert_app_r_alt by lia. by rewrite Nat.sub_diag.
Qed.

Lemma index_lookup l (i : nat) : GoSlice.index l (Z.of_nat i) = l !! i.
Proof.
  unfold GoSlice.index. rewrite decide_True by lia. by rewrite Nat2Z.id.
Qed.

Lemma index_negative l (i : Z) : i < 0 → GoSlice.index l i = None.
Proof. intros Hi. unfold GoSlice.index. by rewrite decide_False by lia. Qed.

End goslice_facts.

(** ** The copy-on-write list *)
Section cowlist_facts.
Context {A : Type} `{!Inhabited A}.
Implicit Types (c : COWList.t A) (l items : list A).

Lemma Append_Load c l (x : A) :
  COWList.Load c = Some l →
  COWList.Append c x =
    Some (Z.of_nat (length l),
          COWList.mk (COWList.arrays c ++ [l ++ [x]])
                     (length (COWList.arrays c))).
Proof.
  intros Hl. unfold COWList.Append. rewrite Hl. simpl.
  rewrite make_succ. simpl.
  rewrite copy_into_longer
    by (rewrite length_app, length_replicate; simpl; lia).
  rewrite drop_app_length' by (by rewrite length_replicate).
  replace (Z.of_nat (length l) + 1 - 1) with (Z.of_nat (length l)) by lia.
  rewrite store_last. done.
Qed.

Lemma Load_published (arrays : list (list A)) l :
  COWList.Load (COWList.mk (arrays ++ [l]) (length arrays)) = Some l.
Proof.
  unfold COWList.Load. simpl.
  rewrite lookup_app_r by lia. by rewrite Nat.sub_diag.
Qed.

Lemma Get_Load c l (k : nat) :
  COWList.Load c = Some l → COWList.Get c (Z.of_nat k) = l !! k.
Proof.
  intros Hl. unfold COWList.Get. rewrite Hl. simpl. apply index_lookup.
Qed.

Lemma Len_Load c l : COWList.Load c = Some l → COWList.Len c = Z.of_nat (length l).
Proof. intros Hl. unfold COWList.Len. by rewrite Hl. Qed.

Lemma indices_cons (from n : nat) :
  COWList.indices from (S n) = Z.of_nat from :: COWList.indices (S from) n.
Proof. done. Qed.

Lemma indices_bound (from n : nat) (j : Z) :
  j ∈ COWList.indices from n → Z.of_nat from <= j < Z.of_nat (from + n).
Proof.
  unfold COWList.indices. intros Hj.
  apply list_elem_of_fmap in Hj as (k & -> & Hk).
  apply elem_of_seq in Hk. lia.
Qed.

(** A run of Append calls from a state whose snapshot is [l]: the indices
    continue from [length l], the snapshot becomes [l ++ items], and the
    arrays allocated so far stay as they were. *)
Lemma AppendAll_Load items : ∀ c l,
  COWList.Load c = Some l →
  ∃ c', COWList.AppendAll c items
          = Some (COWList.indices (length l) (length items), c')
        ∧ COWList.Load c' = Some (l ++ items)
        ∧ COWList.arrays c `prefix_of` COWList.arrays c'.
Proof.
  induction items as [|x items IH]; intros c l Hl.
  - exists c. simpl. by rewrite app_nil_r.
  - simpl. rewrite (Append_Load c l x Hl). simpl.
    destruct (IH (COWList.mk (COWList.arrays c ++ [l ++ [x]])
                             (length (COWList.arrays c))) (l ++ [x]))
      as (c' & Hrun & Hload & Hpre); [apply Load_published|].
    exists c'. rewrite Hrun. simpl. split_and!.
    + rewrite length_app, indices_cons. simpl.
      by replace (length l + 1)%nat with (S (length l)) by lia.
    + by rewrite <- app_assoc in Hload.
    + etrans; [|exact Hpre]. simpl. by apply prefix_app_r.
Qed.

(** C3: on a new COWList, after any sequence [xs] of Append calls (which
    returned the indices 0, 1, ..., in this order), the next Append
    returns the new length minus one, an index above every index returned
    before; Get at every earlier index returns the item appended there,
    before and after this Append; Get at the new index returns the new
    item; and no backing array published earlier has changed. *)
Theorem cowlist_append_indices (xs : list A) (y : A) :
  ∃ c c' : COWList.t A,
    COWList.AppendAll COWList.NewCOWList xs
      = Some (COWList.indices 0 (length xs), c)
    ∧ COWList.Append c y = Some (Z.of_nat (length xs), c')
    ∧ Z.of_nat (length xs) = COWList.Len c' - 1
    ∧ (∀ j, j ∈ COWList.indices 0 (length xs) → j < Z.of_nat (length xs))
    ∧ NoDup (COWList.indices 0 (length xs) ++ [Z.of_nat (length xs)])
    ∧ (∀ (k : nat) (x : A), xs !! k = Some x →
         COWList.Get c (Z.of_nat k) = Some x
         ∧ COWList.Get c' (Z.of_nat k) = Some x)
    ∧ COWList.Get c' (Z.of_nat (length xs)) = Some y
    ∧ (∀ (a : nat) (l : list A), COWList.arrays c !! a = Some l →
         COWList.arrays c' !! a = Some l).
Proof.
  destruct (AppendAll_Load xs COWList.NewCOWList []) as (c & Hrun & Hload & _);
    [done|].
  simpl in Hrun, Hload.
  set (c' := COWList.mk (COWList.arrays c ++ [xs ++ [y]])
                        (length (COWList.arrays c))).
  assert (Hload' : COWList.Load c' = Some (xs ++ [y]))
    by apply Load_published.
  exists c, c'. split_and!.
  - exact Hrun.
  - by rewrite (Append_Load c xs y Hload).
  - rewrite (Len_Load c' _ Hload'), length_app. simpl. lia.
  - intros j Hj. apply indices_bound in Hj. lia.
  - replace [Z.of_nat (length xs)] with (COWList.indices (length xs) 1) by done.
    unfold COWList.indices. rewrite <- fmap_app, <- seq_app.
    apply (NoDup_fmap_2 _). apply NoDup_seq.
  - intros k x Hk. rewrite (Get_Load c xs k Hload), (Get_Load c' _ k Hload').
    split; [done|]. by apply lookup_app_l_Some.
  - rewrite (Get_Load c' _ _ Hload'). apply list_lookup_middle. done.
  - intros a l Ha. subst c'. simpl. by apply lookup_app_l_Some.
Qed.

End cowlist_facts.

(** Three registrations on a new list, and what Get does outside it. *)
Example cowlist_three_appends :
  ∃ c, COWList.AppendAll COWList.NewCOWList
         [Filter.inil; Filter.inil; Filter.inil] = Some ([0; 1; 2], c)
       ∧ COWList.Len c = 3
       ∧ COWList.Get c 3 = None
       ∧ COWList.Get c (-1) = None.
Proof. eexists. split_and!; reflexivity. Qed.

(** ** The compaction filter shim *)
Section filter_facts.
Context {Cchar : Type}.
Variable charToByte : Cchar → Z → slice Byte.byte.
Variable byteToChar : slice Byte.byte → Cchar.

(** A filter is reachable by the index that its registration returned. *)
Lemma registered_filter_lookup (reg reg' : Filter.registry)
    (f : Filter.CompactionFilter) (idx : Z) :
  is_Some (COWList.Load reg) →
  Filter.registerCompactionFilter reg f = Some (idx, reg') →
  COWList.Get reg' idx
    = Some (Filter.iwrapper (Filter.Build_compactionFilterWrapper
                               (Filter.Name f) f)).
Proof.
  intros [l Hl]. unfold Filter.registerCompactionFilter.
  rewrite (Append_Load reg l _ Hl). intros [= <- <-].
  rewrite (Get_Load _ (l ++ [_]) (length l)) by apply Load_published.
  by apply list_lookup_middle.
Qed.

(** C4: for a filter registered at [idx], the shim calls the filter with
    the level and the decoded key and value and translates what it
    returns: on remove = true it returns 1 and leaves the three output
    cells as they were, whatever the replacement value; on remove = false
    with a nil replacement it returns 0 and leaves the cells as they were;
    on remove = false with a non-nil replacement it returns 0 after
    writing the replacement, its length and the changed flag 1. *)
Theorem filter_shim_translation (reg : Filter.registry) (idx cLevel : Z)
    (cKey : Cchar) (cKeyLen : Z) (cVal : Cchar) (cValLen : Z)
    (out : Filter.outputs Cchar) (w : Filter.compactionFilterWrapper)
    (remove : bool) (newVal : slice Byte.byte) :
  COWList.Get reg idx = Some (Filter.iwrapper w) →
  Filter.Filter (Filter.filter w) cLevel
    (charToByte cKey cKeyLen) (charToByte cVal cValLen) = (remove, newVal) →
  Filter.gorocksdb_compactionfilter_filter charToByte byteToChar
    reg idx cLevel cKey cKeyLen cVal cValLen out
  = Some (match remove, newVal with
          | true, _ => (1, out)
          | false, None => (0, out)
          | false, Some b =>
              (0, {| Filter.cNewVal := byteToChar (Some b);
                     Filter.cNewValLen := Z.of_nat (length b);
                     Filter.cValChanged := 1 |})
          end).
Proof.
  intros Hget Hfilter. unfold Filter.gorocksdb_compactionfilter_filter.
  rewrite Hget. simpl. rewrite Hfilter.
  destruct remove; [done|]. by destruct newVal.
Qed.

End filter_facts.

Lemma filter_shim_translation_witness :
  let reg := COWList.mk
               [[]; [Filter.iwrapper
                       (Filter.Build_compactionFilterWrapper "f1"
                          rewriting_filter)]] 1 in
  let out := {| Filter.cNewVal := None; Filter.cNewValLen := 0;
                Filter.cValChanged := 0 |} in
  Filter.registerCompactionFilter COWList.NewCOWList rewriting_filter
    = Some (0, reg)
  ∧ Filter.gorocksdb_compactionfilter_filter
      (λ (p : slice Byte.byte) (_ : Z), p) (λ b, b)
      reg 0 0 (Some ["k"%byte]) 1 (Some ["v"%byte]) 1 out
    = Some (0, {| Filter.cNewVal := Some ["v"%byte; "2"%byte];
                  Filter.cNewValLen := 2; Filter.cValChanged := 1 |}).
Proof.
  intros reg out. split; [reflexivity|].
  apply (filter_shim_translation (λ p _, p) (λ b, b) reg 0 0
           (Some ["k"%byte]) 1 (Some ["v"%byte]) 1 out
           (Filter.Build_compactionFilterWrapper "f1" rewriting_filter)
           false (Some ["v"%byte; "2"%byte])); reflexivity.
Defined.

(** ** The DB wrapper *)
Section db_facts.
Import DB.
Variable engine : list Event → NativeCall → Reply.

(** C1: when [db.opened] is 0 (and no Close holds the mutex), each of
    Get, GetBytes, GetCF, Merge, Flush, DisableFileDeletions and
    EnableFileDeletions returns, with [errDBClosed] as its error; all it
    did was to take and release the read lock: the engine was not called
    and the handle is as before. *)
Theorem guarded_op_closed_error (op : Op) (w : World) :
  guarded_data_op op = true →
  opened (db w) = 0 →
  writer (mu (db w)) = false →
  ∃ (r : Result) (w' : World),
    run engine op w = (Done r, w')
    ∧ error_of r = Some (Some errDBClosed)
    ∧ trace w' = trace w ++ [EvRLock; EvRUnlock]
    ∧ calls (trace w') = calls (trace w)
    ∧ db w' = db w ∧ live w' = live w.
Proof.
  destruct w as [[[rd wr] p nm o opn] lv nx tr]. simpl. intros Hop -> ->.
  assert (Hcalls : calls ((tr ++ [EvRLock]) ++ [EvRUnlock]) = calls tr).
  { unfold calls. rewrite !omap_app. simpl. by rewrite !app_nil_r. }
  destruct op; try discriminate Hop; eexists _, _;
    (split; [cbv -[app]; reflexivity|]); simpl;
    rewrite Hcalls, <- app_assoc; split_and!; reflexivity.
Qed.

Ltac split_reply :=
  match goal with
  | |- context [engine ?t ?call] =>
      destruct (engine t call) as [? [?|] ? ? ? ? ? ? ? ? ?]
  end.

(** Put, Delete and Write start with the engine call, whatever
    [db.opened] holds. *)
Lemma direct_write_calls_engine (op : Op) :
  direct_write_op op = true → calls_engine_directly engine op.
Proof.
  intros Hop [[[rd wr] p nm o opn] lv nx tr].
  destruct op; try discriminate Hop; destruct lv; cbv -[app];
    try split_reply;
    eexists _, _, _, _;
    (split; [reflexivity|]); simpl; rewrite <- ?app_assoc;
    (split; [reflexivity|]); (split; [reflexivity|]);
    intros r [= <-]; discriminate.
Qed.

(** Merge on a closed handle: the typed error, and no engine call. *)
Lemma merge_closed (opts : WriteOptions) (key value : slice Byte.byte)
    (w : World) :
  opened (db w) = 0 →
  writer (mu (db w)) = false →
  ∃ w', run engine (OMerge opts key value) w
          = (Done (RErr (Some errDBClosed)), w')
        ∧ trace w' = trace w ++ [EvRLock; EvRUnlock].
Proof.
  destruct w as [[[rd wr] p nm o opn] lv nx tr]. simpl. intros -> ->.
  eexists. split; [cbv -[app]; reflexivity|]. simpl.
  by rewrite <- app_assoc.
Qed.

(** C2, as the code has it: Put, Delete and the batch Write call the
    engine on [db.c] first, without testing [db.opened], and never return
    [errDBClosed]; Merge tests [db.opened] behind the read lock and, when
    it is 0, returns [errDBClosed] without calling the engine. *)
Theorem write_path_guarding (op : Op) (opts : WriteOptions)
    (key value : slice Byte.byte) (w : World) :
  (direct_write_op op = true → calls_engine_directly engine op)
  ∧ (opened (db w) = 0 → writer (mu (db w)) = false →
     ∃ w', run engine (OMerge opts key value) w
             = (Done (RErr (Some errDBClosed)), w')
           ∧ trace w' = trace w ++ [EvRLock; EvRUnlock]).
Proof.
  split; [apply direct_write_calls_engine | apply merge_closed].
Qed.

(** *** What only Close changes *)

Lemma stable_refl (w : World) : stable w w.
Proof. done. Qed.

Lemma stable_trans (w1 w2 w3 : World) :
  stable w1 w2 → stable w2 w3 → stable w1 w3.
Proof. unfold stable. intros [-> ->] [-> ->]. done. Qed.

Lemma preserves_ret {A} (a : A) : preserves (mret a : M A).
Proof. intros w o w' [= <- <-]. apply stable_refl. Qed.

Lemma preserves_throw {A} (p : panic) : preserves (throw p : M A).
Proof. intros w o w' [= <- <-]. apply stable_refl. Qed.

Lemma preserves_bind {A B} (m : M A) (f : A → M B) :
  preserves m → (∀ a, preserves (f a)) → preserves (m ≫= f).
Proof.
  intros Hm Hf w o w'. unfold mbind, M_bind.
  destruct (m w) as [[a| | |] w1] eqn:E; specialize (Hm _ _ _ E).
  - intros Hk. eapply stable_trans; [exact Hm|]. by eapply Hf.
  - by intros [= <- <-].
  - by intros [= <- <-].
  - by intros [= <- <-].
Qed.

Lemma preserves_defer {A} (d : M unit) (body : M A) :
  preserves d → preserves body → preserves (defer_ d body).
Proof.
  intros Hd Hb w o w'. unfold defer_.
  destruct (body w) as [[a| | |] w1] eqn:E; specialize (Hb _ _ _ E).
  - intros Hk. eapply stable_trans; [exact Hb|].
    eapply (preserves_bind d (λ _, mret a)); [done| |exact Hk].
    intros _. apply preserves_ret.
  - intros Hk. eapply stable_trans; [exact Hb|].
    eapply (preserves_bind d (λ _, throw p)); [done| |exact Hk].
    intros _. apply preserves_throw.
  - by intros [= <- <-].
  - by intros [= <- <-].
Qed.

Lemma preserves_RLock : preserves RLock.
Proof.
  intros [[[rd wr] p nm o opn] lv nx tr] out w'. unfold RLock. simpl.
  destruct wr; by intros [= <- <-].
Qed.

Lemma preserves_RUnlock : preserves RUnlock.
Proof.
  intros [[[rd wr] p nm o opn] lv nx tr] out w'. unfold RUnlock. simpl.
  destruct rd; by intros [= <- <-].
Qed.

Lemma preserves_load_opened : preserves load_opened.
Proof. by intros w o w' [= <- <-]. Qed.

Lemma preserves_load_c : preserves load_c.
Proof. by intros w o w' [= <- <-]. Qed.

Lemma preserves_load_name : preserves load_name.
Proof. by intros w o w' [= <- <-]. Qed.

Lemma preserves_C_free (p : cptr) : preserves (C_free p).
Proof. by intros w o w' [= <- <-]. Qed.

Lemma preserves_cByteSlice (b : slice Byte.byte) : preserves (cByteSlice b).
Proof. by intros w o w' [= <- <-]. Qed.

Lemma preserves_CString (s : string) : preserves (CString s).
Proof. by intros w o w' [= <- <-]. Qed.

Lemma preserves_native (call : NativeCall) :
  call ≠ rocksdb_close → preserves (native engine call).
Proof.
  intros Hcall w o w'. unfold native.
  destruct (uses_db call && negb (live w)); intros [= <- <-]; [done|].
  split; [done|]. simpl. by destruct call.
Qed.

Lemma preserves_addr_of_first {A} (l : list A) : preserves (addr_of_first l).
Proof. destruct l; [apply preserves_throw | apply preserves_ret]. Qed.

Lemma preserves_store_at {A} (l : list A) (i : nat) (x : A) :
  preserves (store_at l i x).
Proof.
  unfold store_at. destruct (GoSlice.store _ _ _);
    [apply preserves_ret | apply preserves_throw].
Qed.

Lemma preserves_load_at {A} (l : list A) (i : nat) : preserves (load_at l i).
Proof.
  unfold load_at. destruct (GoSlice.index _ _);
    [apply preserves_ret | apply preserves_throw].
Qed.

Lemma preserves_GoBytes (b : bytes) (n : Z) : preserves (GoBytes b n).
Proof.
  unfold GoBytes. case_decide; [apply preserves_throw | apply preserves_ret].
Qed.

Lemma preserves_for_from {St} (body : nat → St → M St) (n : nat) :
  (∀ i s, preserves (body i s)) → ∀ i s, preserves (for_from i n body s).
Proof.
  intros Hbody. induction n as [|n IH]; intros i s; simpl.
  - apply preserves_ret.
  - apply preserves_bind; [apply Hbody|]. intros s'. apply IH.
Qed.

Lemma preserves_for_each {A B} (body : A → M B) (l : list A) :
  (∀ x, preserves (body x)) → preserves (for_each body l).
Proof.
  intros Hbody. induction l as [|x l IH]; simpl.
  - apply preserves_ret.
  - apply preserves_bind; [apply Hbody|]. intros y.
    apply preserves_bind; [apply IH|]. intros ys. apply preserves_ret.
Qed.

Lemma preserves_on_cErr {A} (cErr : option string) (fail : error → A)
    (ok : M A) :
  preserves ok → preserves (on_cErr cErr fail ok).
Proof.
  intros Hok. destruct cErr; simpl; [|done].
  apply preserves_defer; [apply preserves_C_free | apply preserves_ret].
Qed.

Ltac frame_step :=
  lazymatch goal with
  | |- preserves (mbind _ _) => apply preserves_bind; [|intros ?]
  | |- preserves (mret _) => apply preserves_ret
  | |- preserves (throw _) => apply preserves_throw
  | |- preserves (defer_ _ _) => apply preserves_defer
  | |- preserves (on_cErr _ _ _) => apply preserves_on_cErr
  | |- preserves (native _ _) => apply preserves_native; discriminate
  | |- preserves (for_each _ _) => apply preserves_for_each; intros ?
  | |- preserves (for_from _ _ _ _) => apply preserves_for_from; intros ? ?
  | |- preserves RLock => apply preserves_RLock
  | |- preserves RUnlock => apply preserves_RUnlock
  | |- preserves load_opened => apply preserves_load_opened
  | |- preserves load_c => apply preserves_load_c
  | |- preserves load_name => apply preserves_load_name
  | |- preserves (C_free _) => apply preserves_C_free
  | |- preserves (cByteSlice _) => apply preserves_cByteSlice
  | |- preserves (CString _) => apply preserves_CString
  | |- preserves (addr_of_first _) => apply preserves_addr_of_first
  | |- preserves (store_at _ _ _) => apply preserves_store_at
  | |- preserves (load_at _ _) => apply preserves_load_at
  | |- preserves (GoBytes _ _) => apply preserves_GoBytes
  | |- preserves (if ?b then _ else _) => destruct b
  | |- preserves (match ?x with _ => _ end) => destruct x
  end.

Ltac frame := repeat frame_step.

(** Every method but Close leaves the open flag and the engine instance
    as they are, however it ends. *)
Lemma run_preserves (op : Op) : op ≠ OClose → preserves (run engine op).
Proof.
  destruct op; intros Hop; try done;
    unfold run, UnsafeGetDB, Name, IsOpened, Get, GetBytesNoLock, GetBytes, GetCF,
      MultiGetBytes, convert_result, fail_closed, Put, PutCF, Delete,
      DeleteCF, Merge, MergeCF, Write, NewIterator, NewIteratorCF,
      NewSnapshot, GetProperty, GetPropertyCF, CreateColumnFamily,
      DropColumnFamily, GetApproximateSizes, GetApproximateSizesCF,
      GetApproximateKeyNum, copy_bounds, free_bounds, GetLiveFilesMetaData,
      read_live_file, CompactRange, CompactRangeCF, Flush,
      DisableFileDeletions, EnableFileDeletions, DeleteFilesInRange,
      DeleteFile, Shutdown;
    frame.
Qed.

(** *** Close and Shutdown *)

(** C6 (the code at the failing input): the first Close on a handle just
    opened returns; the second one takes the lock and hands the destroyed
    engine instance to [rocksdb_close] again. *)
Theorem close_twice_calls_engine_again (p : nat) (nm : string) (o : Options) :
  (Close engine;; Close engine) (fresh p nm o)
  = (Undefined,
     {| db := {| mu := {| readers := 0; writer := true |}; c := p;
                 name := nm; opts := o; opened := 0 |};
        live := false; next := 0;
        trace := [EvLock; EvCall rocksdb_close; EvUnlock;
                  EvLock; EvCall rocksdb_close] |}).
Proof. reflexivity. Qed.

Lemma shutdown_open (w : World) :
  writer (mu (db w)) = false → opened (db w) = 1 → live w = true →
  ∃ w', Shutdown engine w = (Done (), w')
        ∧ db w' = db w ∧ live w' = true
        ∧ trace w' = trace w ++ [EvRLock; EvCall rocksdb_shutdown; EvRUnlock].
Proof.
  destruct w as [[[rd wr] p nm o opn] lv nx tr]. simpl. intros -> -> ->.
  eexists. split; [cbv -[app]; reflexivity|]. simpl.
  by rewrite <- !app_assoc.
Qed.

Lemma shutdown_closed (w : World) :
  writer (mu (db w)) = false → opened (db w) = 0 →
  ∃ w', Shutdown engine w = (Done (), w')
        ∧ db w' = db w ∧ live w' = live w
        ∧ trace w' = trace w ++ [EvRLock; EvRUnlock].
Proof.
  destruct w as [[[rd wr] p nm o opn] lv nx tr]. simpl. intros -> ->.
  eexists. split; [cbv -[app]; reflexivity|]. simpl.
  by rewrite <- !app_assoc.
Qed.

Lemma close_open (w : World) :
  writer (mu (db w)) = false → readers (mu (db w)) = 0%nat → live w = true →
  ∃ w', Close engine w = (Done (), w')
        ∧ opened (db w') = 0 ∧ live w' = false
        ∧ trace w' = trace w ++ [EvLock; EvCall rocksdb_close; EvUnlock].
Proof.
  destruct w as [[[rd wr] p nm o opn] lv nx tr]. simpl. intros -> -> ->.
  eexists. split; [cbv -[app]; reflexivity|]. simpl.
  by rewrite <- !app_assoc.
Qed.

Lemma only_close_changes (op : Op) (w : World) (o : Outcome Result)
    (w' : World) :
  run engine op w = (o, w') →
  opened (db w') ≠ opened (db w) ∨ live w' ≠ live w →
  op = OClose.
Proof.
  intros Hrun Hchanged.
  assert (Hop : op = OClose ∨ op ≠ OClose)
    by (destruct op; (by left) || (by right)).
  destruct Hop as [->|Hop]; [done|].
  destruct (run_preserves op Hop _ _ _ Hrun) as [Ho Hl].
  by destruct Hchanged.
Qed.

(** C8: with the mutex not held by a Close, Shutdown on an open handle
    returns after one [rocksdb_shutdown] call and leaves the handle as it
    was ([opened] still 1, the engine instance not released); on a closed
    handle it calls nothing and changes nothing; a method that changes
    [opened] or releases the engine instance is Close; and Close on an
    open handle stores 0 to [opened] and releases the instance. *)
Theorem shutdown_keeps_handle_open (w : World) :
  writer (mu (db w)) = false →
  (opened (db w) = 1 → live w = true →
     ∃ w', Shutdown engine w = (Done (), w')
           ∧ db w' = db w ∧ live w' = true
           ∧ trace w'
             = trace w ++ [EvRLock; EvCall rocksdb_shutdown; EvRUnlock])
  ∧ (opened (db w) = 0 →
     ∃ w', Shutdown engine w = (Done (), w')
           ∧ db w' = db w ∧ live w' = live w
           ∧ trace w' = trace w ++ [EvRLock; EvRUnlock])
  ∧ (∀ op o w', run engine op w = (o, w') →
       opened (db w') ≠ opened (db w) ∨ live w' ≠ live w → op = OClose)
  ∧ (readers (mu (db w)) = 0%nat → live w = true →
     ∃ w', Close engine w = (Done (), w')
           ∧ opened (db w') = 0 ∧ live w' = false
           ∧ trace w' = trace w ++ [EvLock; EvCall rocksdb_close; EvUnlock]).
Proof.
  intros Hw. split_and!.
  - by apply shutdown_open.
  - by apply shutdown_closed.
  - intros op o w'. apply only_close_changes.
  - by apply close_open.
Qed.

(** *** The batch read *)

(** C7 (the code at the failing input): on a handle just opened, a batch
    read of no keys panics with an index out of range while it builds the
    arguments of the engine call; the engine is not called and the read
    lock stays held. *)
Theorem multi_get_no_keys_panics (p : nat) (nm : string) (o : Options)
    (opts : ReadOptions) (values : list (slice Byte.byte))
    (errs : list (option error)) :
  MultiGetBytes engine opts [] values errs (fresh p nm o)
  = (Panic (IndexOutOfRange 0 0),
     {| db := {| mu := {| readers := 1; writer := false |}; c := p;
                 name := nm; opts := o; opened := 1 |};
        live := true; next := 0; trace := [EvRLock] |}).
Proof. reflexivity. Qed.

(** *** Rules for computations that return *)

Lemma wp_ret {A} (a : A) (w : World) (Q : A → World → Prop) :
  Q a w → wp (mret a) w Q.
Proof. intros HQ. by exists a, w. Qed.

Lemma wp_bind {A B} (m : M A) (f : A → M B) (w : World)
    (Q : B → World → Prop) :
  wp m w (λ a w', wp (f a) w' Q) → wp (m ≫= f) w Q.
Proof.
  intros (a & w1 & Hm & b & w2 & Hf & HQ). exists b, w2. split; [|done].
  unfold mbind, M_bind. by rewrite Hm.
Qed.

Lemma wp_defer {A} (d : M unit) (body : M A) (w : World)
    (Q : A → World → Prop) :
  wp body w (λ a w', wp d w' (λ _ w'', Q a w'')) → wp (defer_ d body) w Q.
Proof.
  intros (a & w1 & Hb & u & w2 & Hd & HQ). exists a, w2. split; [|done].
  unfold defer_. rewrite Hb. unfold mbind, M_bind. by rewrite Hd.
Qed.

Lemma wp_returns {A} (m : M A) (w : World) (Q : A → World → Prop) :
  returns m → (∀ a w', Q a w') → wp m w Q.
Proof. intros Hm HQ. destruct (Hm w) as (a & w' & E). by exists a, w'. Qed.

Lemma returns_C_free (p : cptr) : returns (C_free p).
Proof. intros w. by eexists _, _. Qed.

Lemma returns_CString (s : string) : returns (CString s).
Proof. intros w. by eexists _, _. Qed.

Lemma returns_native_open (call : NativeCall) :
  uses_db call = false → returns (native engine call).
Proof. intros Hcall w. unfold native. rewrite Hcall. by eexists _, _. Qed.

Lemma wp_for_each {A B} (body : A → M B) (l : list A) (w : World)
    (Q : list B → World → Prop) :
  (∀ x, returns (body x)) →
  (∀ ys w', length ys = length l → Q ys w') →
  wp (for_each body l) w Q.
Proof.
  intros Hbody. revert w Q. induction l as [|x l IH]; intros w Q HQ; simpl.
  - apply wp_ret. by apply HQ.
  - apply wp_bind, wp_returns; [apply Hbody|]. intros y w1.
    apply wp_bind, IH. intros ys w2 Hlen. apply wp_ret, HQ. simpl. by f_equal.
Qed.

Lemma returns_ret {A} (a : A) : returns (mret a : M A).
Proof. intros w. by eexists _, _. Qed.

Lemma returns_on_cErr {A} (cErr : option string) (fail : error → A)
    (ok : M A) :
  returns ok → returns (on_cErr cErr fail ok).
Proof.
  intros Hok. destruct cErr; simpl; [|done].
  intros w. by eexists _, _.
Qed.

(** *** Opening with column families *)

Lemma open_cf_mismatch (opts : Options) (name : string)
    (cfNames : list string) (cfOpts : list Options) (ro : bool) (w : World) :
  length cfNames ≠ length cfOpts →
  OpenDbColumnFamilies engine opts name cfNames cfOpts w
    = (Done (None, None, Some cf_count_mismatch), w)
  ∧ OpenDbForReadOnlyColumnFamilies engine opts name cfNames cfOpts ro w
    = (Done (None, None, Some cf_count_mismatch), w).
Proof.
  intros Hlen. unfold OpenDbColumnFamilies, OpenDbForReadOnlyColumnFamilies.
  rewrite !decide_True by lia. split; reflexivity.
Qed.

Lemma open_cf_empty (opts : Options) (name : string) (ro : bool) (w : World) :
  OpenDbColumnFamilies engine opts name [] [] w
    = (Panic (IndexOutOfRange 0 0),
       logs [EvCString (next w) name; EvFree (HostBuf (next w))]
         {| db := db w; live := live w; next := S (next w);
            trace := trace w |})
  ∧ OpenDbForReadOnlyColumnFamilies engine opts name [] [] ro w
    = (Panic (IndexOutOfRange 0 0),
       logs [EvCString (next w) name; EvFree (HostBuf (next w))]
         {| db := db w; live := live w; next := S (next w);
            trace := trace w |}).
Proof.
  destruct w as [d lv nx tr]. cbv -[app]. by rewrite <- !app_assoc.
Qed.

Lemma open_cf_returns (opts : Options) (name : string)
    (cfNames : list string) (cfOpts : list Options) (ro : bool) (w : World) :
  cfNames ≠ [] → length cfNames = length cfOpts →
  wp (OpenDbColumnFamilies engine opts name cfNames cfOpts) w (λ _ _, True)
  ∧ wp (OpenDbForReadOnlyColumnFamilies engine opts name cfNames cfOpts ro)
       w (λ _ _, True).
Proof.
  intros Hne Hlen.
  unfold OpenDbColumnFamilies, OpenDbForReadOnlyColumnFamilies.
  rewrite !decide_False by lia.
  destruct cfNames as [|s cfNames]; [done|].
  destruct cfOpts as [|o cfOpts]; [done|].
  split.
  all: apply wp_bind, wp_returns; [apply returns_CString|]; intros cName w1.
  all: apply wp_defer, wp_bind, wp_for_each; [apply returns_CString|].
  all: intros [|y cNames] w2 Hcn; [done|].
  all: apply wp_defer; cbn [addr_of_first length replicate].
  all: do 3 (apply wp_bind, wp_ret).
  all: apply wp_bind, wp_returns; [by apply returns_native_open|].
  all: intros r w3.
  all: apply wp_returns; [apply returns_on_cErr, returns_ret|].
  all: intros r' w4.
  all: apply wp_bind, wp_for_each; [apply returns_C_free|]; intros ys w5 _.
  all: apply wp_ret, wp_returns; [apply returns_C_free|done].
Qed.

(** C10: both open functions return the error for mismatched lists when
    the two lists differ in length; with both lists empty they panic with
    an index out of range at [&cNames[0]], before any engine call; with
    at least one column family and lists of equal length they return. *)
Theorem open_column_family_lists (opts : Options) (name : string)
    (cfNames : list string) (cfOpts : list Options) (ro : bool) (w : World) :
  (length cfNames ≠ length cfOpts →
     OpenDbColumnFamilies engine opts name cfNames cfOpts w
       = (Done (None, None, Some cf_count_mismatch), w)
     ∧ OpenDbForReadOnlyColumnFamilies engine opts name cfNames cfOpts ro w
       = (Done (None, None, Some cf_count_mismatch), w))
  ∧ (cfNames = [] → cfOpts = [] →
     ∃ w', OpenDbColumnFamilies engine opts name cfNames cfOpts w
             = (Panic (IndexOutOfRange 0 0), w')
           ∧ OpenDbForReadOnlyColumnFamilies engine opts name cfNames cfOpts
               ro w
             = (Panic (IndexOutOfRange 0 0), w')
           ∧ calls (trace w') = calls (trace w))
  ∧ (cfNames ≠ [] → length cfNames = length cfOpts →
     (∃ r w', OpenDbColumnFamilies engine opts name cfNames cfOpts w
                = (Done r, w'))
     ∧ (∃ r w', OpenDbForReadOnlyColumnFamilies engine opts name cfNames
                  cfOpts ro w = (Done r, w'))).
Proof.
  split_and!.
  - apply open_cf_mismatch.
  - intros -> ->. destruct (open_cf_empty opts name ro w) as [H1 H2].
    eexists. split_and!; [exact H1 | exact H2 |].
    unfold calls, logs. simpl. rewrite omap_app. simpl. by rewrite app_nil_r.
  - intros Hne Hlen.
    destruct (open_cf_returns opts name cfNames cfOpts ro w Hne Hlen)
      as [(r1 & w1 & H1 & _) (r2 & w2 & H2 & _)].
    split; by eexists _, _.
Qed.

(** *** The loops of the batch read *)

Lemma for_each_cByteSlice (l : list (slice Byte.byte)) : ∀ w,
  for_each cByteSlice l w
  = (Done (HostBuf <$> seq (next w) (length l)),
     {| db := db w; live := live w; next := next w + length l;
        trace := trace w ++ imap (λ i b, EvCByteSlice (next w + i) b) l |}).
Proof.
  induction l as [|b l IH]; intros [d lv nx tr]; simpl.
  - unfold mret, M_ret. by rewrite Nat.add_0_r, app_nil_r.
  - unfold mbind, M_bind, cByteSlice, alloc. simpl. rewrite IH. simpl.
    unfold mret, M_ret. rewrite <- app_assoc. simpl.
    rewrite Nat.add_0_r, Nat.add_succ_r. do 4 f_equal.
    apply imap_ext. intros i x _. simpl. f_equal. lia.
Qed.

Lemma take_succ_insert {A} (l : list A) (i : nat) (x : A) :
  (i < length l)%nat → take (S i) (<[i:=x]> l) = take i l ++ [x].
Proof.
  intros Hi. destruct (lookup_lt_is_Some_2 l i Hi) as [y Hy].
  rewrite take_insert_lt by lia. rewrite (take_S_r _ _ y Hy).
  rewrite insert_app_r_alt by (rewrite length_take; lia).
  rewrite length_take. by replace (i - i `min` length l)%nat with 0%nat by lia.
Qed.

Lemma fail_closed_step (cKeys : list cptr) (i : nat)
    (values : list (slice Byte.byte)) (errs : list (option error))
    (p : cptr) (w : World) :
  (i < length values)%nat → (i < length errs)%nat → cKeys !! i = Some p →
  fail_closed cKeys i (values, errs) w
  = (Done (<[i:=None]> values, <[i:=Some errDBClosed]> errs),
     log (EvFree p) w).
Proof.
  intros Hv He Hp.
  unfold fail_closed, store_at, load_at, GoSlice.store. simpl.
  rewrite !decide_True by lia. rewrite index_lookup, Hp, Nat2Z.id.
  reflexivity.
Qed.

Lemma fail_closed_loop (cKeys : list cptr) (n : nat) : ∀ i values errs w,
  (i + n ≤ length values)%nat →
  (i + n ≤ length errs)%nat →
  (i + n ≤ length cKeys)%nat →
  for_from i n (fail_closed cKeys) (values, errs) w
  = (Done (take i values ++ replicate n None ++ drop (i + n) values,
           take i errs ++ replicate n (Some errDBClosed)
             ++ drop (i + n) errs),
     logs (EvFree <$> take n (drop i cKeys)) w).
Proof.
  induction n as [|n IH]; intros i values errs w Hv He Hk; simpl.
  - unfold mret, M_ret, logs. rewrite Nat.add_0_r, !take_drop, app_nil_r.
    by destruct w.
  - destruct (lookup_lt_is_Some_2 cKeys i) as [p Hp]; [lia|].
    unfold mbind at 1. unfold M_bind at 1.
    rewrite (fail_closed_step cKeys i values errs p) by (done || lia).
    rewrite IH by (rewrite ?length_insert; lia).
    rewrite !take_succ_insert by lia.
    rewrite !drop_insert_lt by lia.
    rewrite <- !app_assoc. simpl.
    replace (S (i + n)) with (i + S n)%nat by lia.
    rewrite (drop_S _ _ _ Hp). simpl.
    unfold logs, log. simpl. by rewrite <- app_assoc.
Qed.

Lemma calls_app (t1 t2 : list Event) : calls (t1 ++ t2) = calls t1 ++ calls t2.
Proof. apply omap_app. Qed.

Lemma calls_cByteSlice (from : nat) (l : list (slice Byte.byte)) :
  calls (imap (λ i b, EvCByteSlice (from + i) b) l) = [].
Proof.
  revert from. induction l as [|b l IH]; intros from; [done|].
  simpl. unfold calls in *. simpl.
  rewrite <- (IH (S from)). f_equal. apply imap_ext. intros j x _. simpl.
  f_equal. lia.
Qed.

Lemma calls_free (ps : list cptr) : calls (EvFree <$> ps) = [].
Proof. induction ps as [|p ps IH]; [done|]. exact IH. Qed.

(** C5: on a closed handle whose mutex no Close holds, with room in
    [values] and [errs] for every key, the batch read returns after
    setting the value of every key to nil and its error to [errDBClosed];
    what it did, in order: it allocated one C buffer per key, took the
    read lock once, freed exactly those buffers, released the lock.  The
    engine was not called. *)
Theorem multi_get_closed (opts : ReadOptions)
    (keyList : list (slice Byte.byte)) (values : list (slice Byte.byte))
    (errs : list (option error)) (w : World) :
  opened (db w) = 0 →
  writer (mu (db w)) = false →
  (length keyList ≤ length values)%nat →
  (length keyList ≤ length errs)%nat →
  let n := length keyList in
  ∃ w', MultiGetBytes engine opts keyList values errs w
        = (Done (replicate n None ++ drop n values,
                 replicate n (Some errDBClosed) ++ drop n errs), w')
      ∧ trace w'
        = trace w ++ imap (λ i k, EvCByteSlice (next w + i) k) keyList
            ++ [EvRLock] ++ (EvFree <$> (HostBuf <$> seq (next w) n))
            ++ [EvRUnlock]
      ∧ calls (trace w') = calls (trace w)
      ∧ db w' = db w ∧ live w' = live w.
Proof.
  destruct w as [[[rd wr] p nm o opn] lv nx tr]. simpl.
  intros -> -> Hv He. eexists. split.
  - unfold MultiGetBytes. unfold mbind at 1. unfold M_bind at 1.
    rewrite for_each_cByteSlice.
    unfold mbind, M_bind, RLock, load_opened. simpl.
    rewrite fail_closed_loop by (rewrite ?length_fmap, ?length_seq; lia).
    simpl. rewrite drop_0, firstn_all2 by (by rewrite length_fmap, length_seq).
    reflexivity.
  - simpl. split_and!; try done.
    + by rewrite <- !app_assoc.
    + rewrite !calls_app, calls_cByteSlice, calls_free. simpl.
      by rewrite !app_nil_r.
Qed.

(** *** Results on a closed handle and engine errors *)


End db_facts.

(** ** Runs on sample inputs *)

(** The identity filter, dispatched through the registry like any other:
    the value passes through unchanged. *)
Example identity_filter_keeps_value :
  ∃ reg,
    Filter.registerCompactionFilter COWList.NewCOWList
      (Filter.NewNativeCompactionFilter ()) = Some (0, reg)
    ∧ Filter.gorocksdb_compactionfilter_name reg 0 = Some EmptyString
    ∧ ∀ out : Filter.outputs (slice Byte.byte),
        Filter.gorocksdb_compactionfilter_filter
          (λ (p : slice Byte.byte) (_ : Z), p) (λ b, b)
          reg 0 0 (Some ["k"%byte]) 1 (Some ["v"%byte]) 1 out
        = Some (0, out).
Proof. eexists. split_and!; reflexivity. Qed.

(** An empty list of ranges gives an empty, non-nil list of sizes, with
    no lock taken and no engine call. *)
Example approximate_sizes_no_ranges :
  DB.GetApproximateSizes silent_engine [] true open_handle
  = (DB.Done (Some []), open_handle).
Proof. reflexivity. Qed.

(** Put, Get of a missing key, and Close on a handle just opened. *)
Example put_get_close :
  ∃ w', (DB.Put silent_engine 0%nat (Some ["a"%byte]) (Some ["1"%byte]);;
         r ← DB.GetBytes silent_engine 0%nat (Some ["a"%byte]);
         DB.Close silent_engine;;
         mret r) open_handle
        = (DB.Done (None, None), w')
      ∧ DB.opened (DB.db w') = 0 ∧ DB.live w' = false
      ∧ DB.calls (DB.trace w')
        = [DB.rocksdb_put 0%nat ["a"%byte] ["1"%byte];
           DB.rocksdb_get 0%nat ["a"%byte]; DB.rocksdb_close].
Proof. eexists. split_and!; reflexivity. Qed.

Lemma guarded_op_closed_error_witness :
  ∃ (r : DB.Result) (w' : DB.World),
    DB.run silent_engine (DB.OFlush 0%nat) closed_handle = (DB.Done r, w')
    ∧ DB.error_of r = Some (Some DB.errDBClosed)
    ∧ DB.trace w' = DB.trace closed_handle ++ [DB.EvRLock; DB.EvRUnlock]
    ∧ DB.calls (DB.trace w') = DB.calls (DB.trace closed_handle)
    ∧ DB.db w' = DB.db closed_handle ∧ DB.live w' = DB.live closed_handle.
Proof.
  apply (guarded_op_closed_error silent_engine (DB.OFlush 0%nat)
           closed_handle); reflexivity.
Defined.

Lemma write_path_guarding_witness :
  calls_engine_directly silent_engine (DB.OPut 0%nat None None)
  ∧ ∃ w', DB.run silent_engine (DB.OMerge 0%nat None None) closed_handle
            = (DB.Done (DB.RErr (Some DB.errDBClosed)), w')
          ∧ DB.trace w'
            = DB.trace closed_handle ++ [DB.EvRLock; DB.EvRUnlock].
Proof.
  destruct (write_path_guarding silent_engine (DB.OPut 0%nat None None)
              0%nat None None closed_handle) as [Hput Hmerge].
  split; [apply Hput; reflexivity | apply Hmerge; reflexivity].
Defined.

(** C2 as stated fails for Merge: on a closed handle Merge returns
    [errDBClosed] and its only events are the lock and the unlock. *)
Lemma merge_is_guarded :
  ¬ calls_engine_directly silent_engine (DB.OMerge 0%nat None None).
Proof.
  intros H.
  destruct (H closed_handle) as (o & w' & call & rest & Hrun & _ & _ & Herr).
  cbv -[app] in Hrun. injection Hrun as <- <-.
  by apply (Herr _ eq_refl).
Qed.

Lemma shutdown_keeps_handle_open_witness :
  ∃ w', DB.Shutdown silent_engine open_handle = (DB.Done (), w')
        ∧ DB.db w' = DB.db open_handle ∧ DB.live w' = true
        ∧ DB.trace w'
          = [DB.EvRLock; DB.EvCall DB.rocksdb_shutdown; DB.EvRUnlock].
Proof.
  apply (shutdown_keeps_handle_open silent_engine open_handle); reflexivity.
Defined.

Lemma open_column_family_lists_witness :
  ∃ w', DB.OpenDbColumnFamilies silent_engine 0%nat "testdb" [] [] open_handle
          = (DB.Panic (DB.IndexOutOfRange 0 0), w')
        ∧ DB.OpenDbForReadOnlyColumnFamilies silent_engine 0%nat "testdb"
            [] [] false open_handle
          = (DB.Panic (DB.IndexOutOfRange 0 0), w')
        ∧ DB.calls (DB.trace w') = DB.calls (DB.trace open_handle).
Proof.
  apply (open_column_family_lists silent_engine 0%nat "testdb" [] [] false
           open_handle); reflexivity.
Defined.

Lemma multi_get_closed_witness :
  ∃ w', DB.MultiGetBytes silent_engine 0%nat two_keys two_values two_errs
          closed_handle
        = (DB.Done ([None; None],
                    [Some DB.errDBClosed; Some DB.errDBClosed]), w')
      ∧ DB.trace w'
        = [DB.EvCByteSlice 0 (Some ["a"%byte]);
           DB.EvCByteSlice 1 (Some ["b"%byte]);
           DB.EvRLock; DB.EvFree (DB.HostBuf 0); DB.EvFree (DB.HostBuf 1);
           DB.EvRUnlock]
      ∧ DB.calls (DB.trace w') = []
      ∧ DB.db w' = DB.db closed_handle ∧ DB.live w' = false.
Proof.
  apply (multi_get_closed silent_engine 0%nat two_keys two_values two_errs
           closed_handle); simpl; (reflexivity || lia).
Defined.


(** The caller cannot tell the closed handle from an open one on which
    the engine knows no such property. *)
Example get_property_closed_like_unknown :
  (DB.run silent_engine (DB.OGetProperty "rocksdb.stats") closed_handle).1
  = (DB.run silent_engine (DB.OGetProperty "rocksdb.stats") open_handle).1.
Proof. reflexivity. Qed.

(** * More properties of the registry *)
Section registry_more.
Context {A : Type} `{!Inhabited A}.

(** On a list built by Append calls from a new one, Get returns the item
    appended at the index when the index is one that Append returned,
    and panics for every other index, negative ones included. *)
Theorem cowlist_get_bounds (xs : list A) (i : Z) :
  ∃ (idxs : list Z) (c : COWList.t A),
    COWList.AppendAll COWList.NewCOWList xs = Some (idxs, c)
    ∧ COWList.Get c i
      = (if decide (0 <= i < Z.of_nat (length xs)) then xs !! Z.to_nat i
         else None)
    ∧ (is_Some (COWList.Get c i) ↔ i ∈ idxs).
Proof.
  destruct (AppendAll_Load xs COWList.NewCOWList []) as (c & Hrun & Hload & _);
    [done|].
  simpl in Hrun, Hload. exists (COWList.indices 0 (length xs)), c.
  split; [done|].
  assert (Hget : COWList.Get c i
                 = if decide (0 <= i < Z.of_nat (length xs))
                   then xs !! Z.to_nat i else None).
  { unfold COWList.Get. rewrite Hload. simpl. unfold GoSlice.index.
    destruct (decide (0 <= i)) as [Hi|Hi].
    - case_decide as Hr; [done|]. apply lookup_ge_None_2. lia.
    - by rewrite decide_False by lia. }
  split; [done|]. rewrite Hget. unfold COWList.indices.
  case_decide as Hr.
  - split; intros _.
    + apply list_elem_of_fmap. exists (Z.to_nat i). split; [lia|].
      apply elem_of_seq. lia.
    + apply lookup_lt_is_Some_2. lia.
  - split; [by intros [? ?]|]. intros Hin.
    apply list_elem_of_fmap in Hin as (k & -> & Hk).
    apply elem_of_seq in Hk. lia.
Qed.

End registry_more.

Section filters_more.
Context {Cchar : Type}.
Variable charToByte : Cchar → Z → slice Byte.byte.
Variable byteToChar : slice Byte.byte → Cchar.

Lemma registerAll_AppendAll (fs : list Filter.CompactionFilter) :
  ∀ reg, registerAll reg fs = COWList.AppendAll reg (wrap_filter <$> fs).
Proof.
  induction fs as [|f fs IH]; intros reg; [done|]. simpl.
  unfold Filter.registerCompactionFilter. fold (wrap_filter f).
  destruct (COWList.Append reg (wrap_filter f)) as [[idx reg1]|]; [|done].
  simpl. by rewrite IH.
Qed.

(** Registering any sequence of filters in a new registry returns the
    indices 0, 1, ... in order; afterwards the name callback at the
    index of a filter returns that filter's name, the filter callback
    at that index returns the translation of what that filter's Filter
    returns for the level and the decoded key and value, and both
    callbacks panic at any other index. *)
Theorem registered_filters_dispatch (fs : list Filter.CompactionFilter) :
  ∃ reg,
    registerAll COWList.NewCOWList fs
      = Some (COWList.indices 0 (length fs), reg)
    ∧ (∀ (k : nat) f, fs !! k = Some f →
         Filter.gorocksdb_compactionfilter_name reg (Z.of_nat k)
           = Some (Filter.Name f)
         ∧ ∀ cLevel cKey cKeyLen cVal cValLen out,
             Filter.gorocksdb_compactionfilter_filter charToByte byteToChar
               reg (Z.of_nat k) cLevel cKey cKeyLen cVal cValLen out
             = Some (translated byteToChar
                       (Filter.Filter f cLevel (charToByte cKey cKeyLen)
                          (charToByte cVal cValLen)) out))
    ∧ (∀ idx, idx < 0 ∨ Z.of_nat (length fs) <= idx →
         Filter.gorocksdb_compactionfilter_name reg idx = None
         ∧ ∀ cLevel cKey cKeyLen cVal cValLen out,
             Filter.gorocksdb_compactionfilter_filter charToByte byteToChar
               reg idx cLevel cKey cKeyLen cVal cValLen out = None).
Proof.
  destruct (AppendAll_Load (wrap_filter <$> fs) COWList.NewCOWList [])
    as (reg & Hrun & Hload & _); [done|].
  simpl in Hrun, Hload. rewrite length_fmap in Hrun.
  exists reg. split; [by rewrite registerAll_AppendAll|]. split.
  - intros k f Hk.
    assert (Hget : COWList.Get reg (Z.of_nat k) = Some (wrap_filter f)).
    { rewrite (Get_Load reg _ k Hload), list_lookup_fmap, Hk. done. }
    split.
    + unfold Filter.gorocksdb_compactionfilter_name. rewrite Hget. done.
    + intros cLevel cKey cKeyLen cVal cValLen out.
      destruct (Filter.Filter f cLevel (charToByte cKey cKeyLen)
                  (charToByte cVal cValLen)) as [remove newVal] eqn:Hf.
      unfold Filter.gorocksdb_compactionfilter_filter. rewrite Hget.
      simpl. rewrite Hf. by destruct remove, newVal.
  - intros idx Hidx.
    assert (Hget : COWList.Get reg idx = None).
    { unfold COWList.Get. rewrite Hload. simpl. unfold GoSlice.index.
      case_decide; [|done]. apply lookup_ge_None_2.
      rewrite length_fmap. lia. }
    split.
    + unfold Filter.gorocksdb_compactionfilter_name. by rewrite Hget.
    + intros. unfold Filter.gorocksdb_compactionfilter_filter.
      by rewrite Hget.
Qed.

(** The filter that [NewNativeCompactionFilter] makes has the empty
    name, and wherever it is registered the filter callback returns 0
    and leaves the three output cells as they were, for every level, key
    and value. *)
Theorem native_filter_keeps_everything {C : Type} (c : C)
    (reg : Filter.registry) (idx : Z) (nm : string) :
  COWList.Get reg idx
    = Some (Filter.iwrapper
              {| Filter.name := nm;
                 Filter.filter := Filter.NewNativeCompactionFilter c |}) →
  Filter.Name (Filter.NewNativeCompactionFilter c) = EmptyString
  ∧ ∀ cLevel cKey cKeyLen cVal cValLen out,
      Filter.gorocksdb_compactionfilter_filter charToByte byteToChar
        reg idx cLevel cKey cKeyLen cVal cValLen out
      = Some (0, out).
Proof.
  intros Hget. split; [done|]. intros.
  unfold Filter.gorocksdb_compactionfilter_filter. by rewrite Hget.
Qed.

End filters_more.

(** * More properties of the DB wrapper *)
Section db_more.
Import DB.
Variable engine : list Event → NativeCall → Reply.

Ltac split_reply_all :=
  match goal with
  | |- context [engine ?t ?call] =>
      destruct (engine t call) as [[?|] [?|] ? ? ? ? ? ? ? ? ?]
  end.

(** ** What a reader never does *)

Lemma reader_only_ret {A} (a : A) : reader_only (mret a : M A).
Proof. intros w o w' [= <- <-]. exists []. by rewrite app_nil_r. Qed.

Lemma reader_only_throw {A} (p : panic) : reader_only (throw p : M A).
Proof. intros w o w' [= <- <-]. exists []. by rewrite app_nil_r. Qed.

Lemma reader_only_trans (w1 w2 w3 : World) (es1 es2 : list Event) :
  trace w2 = trace w1 ++ es1 → forallb reader_event es1 = true →
  trace w3 = trace w2 ++ es2 → forallb reader_event es2 = true →
  ∃ es, trace w3 = trace w1 ++ es ∧ forallb reader_event es = true.
Proof.
  intros H1 F1 H2 F2. exists (es1 ++ es2). split.
  - by rewrite H2, H1, app_assoc.
  - rewrite forallb_app, F1, F2. done.
Qed.

Lemma reader_only_bind {A B} (m : M A) (f : A → M B) :
  reader_only m → (∀ a, reader_only (f a)) → reader_only (m ≫= f).
Proof.
  intros Hm Hf w o w'. unfold mbind, M_bind.
  destruct (m w) as [[a| | |] w1] eqn:E; specialize (Hm _ _ _ E).
  - intros Hk. destruct Hm as (es1 & H1 & F1).
    destruct (Hf a _ _ _ Hk) as (es2 & H2 & F2).
    by eapply reader_only_trans.
  - by intros [= <- <-].
  - by intros [= <- <-].
  - by intros [= <- <-].
Qed.

Lemma reader_only_defer {A} (d : M unit) (body : M A) :
  reader_only d → reader_only body → reader_only (defer_ d body).
Proof.
  intros Hd Hb w o w'. unfold defer_.
  destruct (body w) as [[a| | |] w1] eqn:E; specialize (Hb _ _ _ E).
  - intros Hk. destruct Hb as (es1 & H1 & F1).
    destruct (reader_only_bind d (λ _, mret a) Hd (λ _, reader_only_ret a)
                _ _ _ Hk) as (es2 & H2 & F2).
    by eapply reader_only_trans.
  - intros Hk. destruct Hb as (es1 & H1 & F1).
    destruct (reader_only_bind d (λ _, throw p) Hd
                (λ _, reader_only_throw p) _ _ _ Hk) as (es2 & H2 & F2).
    by eapply reader_only_trans.
  - by intros [= <- <-].
  - by intros [= <- <-].
Qed.

Lemma reader_only_silent {A} (m : M A) :
  (∀ w, (m w).2 = w) → reader_only m.
Proof.
  intros Hm w o w' E. exists []. rewrite app_nil_r.
  specialize (Hm w). rewrite E in Hm. simpl in Hm. by subst.
Qed.

Lemma reader_only_log {A} (m : M A) (e : World → Event) :
  (∀ w, (m w).2 = w ∨ (trace (m w).2 = trace w ++ [e w]
                        ∧ reader_event (e w) = true)) →
  reader_only m.
Proof.
  intros Hm w o w' E. specialize (Hm w). rewrite E in Hm. simpl in Hm.
  destruct Hm as [->|[Ht He]].
  - exists []. by rewrite app_nil_r.
  - exists [e w]. split; [done|]. simpl. by rewrite He.
Qed.

Lemma reader_only_RLock : reader_only RLock.
Proof.
  apply (reader_only_log _ (λ _, EvRLock)). intros w. unfold RLock.
  destruct (writer (mu (db w))); [by left|by right].
Qed.

Lemma reader_only_RUnlock : reader_only RUnlock.
Proof.
  apply (reader_only_log _ (λ _, EvRUnlock)). intros w. unfold RUnlock.
  destruct (readers (mu (db w))); [by left|by right].
Qed.

Lemma reader_only_load_opened : reader_only load_opened.
Proof. by apply reader_only_silent. Qed.

Lemma reader_only_load_c : reader_only load_c.
Proof. by apply reader_only_silent. Qed.

Lemma reader_only_load_name : reader_only load_name.
Proof. by apply reader_only_silent. Qed.

Lemma reader_only_C_free (p : cptr) : reader_only (C_free p).
Proof. apply (reader_only_log _ (λ _, EvFree p)). intros w. by right. Qed.

Lemma reader_only_cByteSlice (b : slice Byte.byte) :
  reader_only (cByteSlice b).
Proof.
  apply (reader_only_log _ (λ w, EvCByteSlice (next w) b)). intros w.
  by right.
Qed.

Lemma reader_only_CString (s : string) : reader_only (CString s).
Proof.
  apply (reader_only_log _ (λ w, EvCString (next w) s)). intros w. by right.
Qed.

Lemma reader_only_native (call : NativeCall) :
  call ≠ rocksdb_close → reader_only (native engine call).
Proof.
  intros Hcall. apply (reader_only_log _ (λ _, EvCall call)). intros w.
  right. unfold native.
  destruct (uses_db call && negb (live w)); simpl; (split; [done|]);
    by destruct call.
Qed.

Lemma reader_only_addr_of_first {A} (l : list A) :
  reader_only (addr_of_first l).
Proof. destruct l; [apply reader_only_throw | apply reader_only_ret]. Qed.

Lemma reader_only_store_at {A} (l : list A) (i : nat) (x : A) :
  reader_only (store_at l i x).
Proof.
  unfold store_at. destruct (GoSlice.store _ _ _);
    [apply reader_only_ret | apply reader_only_throw].
Qed.

Lemma reader_only_load_at {A} (l : list A) (i : nat) :
  reader_only (load_at l i).
Proof.
  unfold load_at. destruct (GoSlice.index _ _);
    [apply reader_only_ret | apply reader_only_throw].
Qed.

Lemma reader_only_for_from {St} (body : nat → St → M St) (n : nat) :
  (∀ i s, reader_only (body i s)) → ∀ i s, reader_only (for_from i n body s).
Proof.
  intros Hbody. induction n as [|n IH]; intros i s; simpl.
  - apply reader_only_ret.
  - apply reader_only_bind; [apply Hbody|]. intros s'. apply IH.
Qed.

Lemma reader_only_for_each {A B} (body : A → M B) (l : list A) :
  (∀ x, reader_only (body x)) → reader_only (for_each body l).
Proof.
  intros Hbody. induction l as [|x l IH]; simpl.
  - apply reader_only_ret.
  - apply reader_only_bind; [apply Hbody|]. intros y.
    apply reader_only_bind; [apply IH|]. intros ys. apply reader_only_ret.
Qed.

Lemma reader_only_GoBytes (b : bytes) (n : Z) : reader_only (GoBytes b n).
Proof.
  unfold GoBytes.
  case_decide; [apply reader_only_throw | apply reader_only_ret].
Qed.

Lemma reader_only_on_cErr {A} (cErr : option string) (fail : error → A)
    (ok : M A) :
  reader_only ok → reader_only (on_cErr cErr fail ok).
Proof.
  intros Hok. destruct cErr; simpl; [|done].
  apply reader_only_defer; [apply reader_only_C_free | apply reader_only_ret].
Qed.

Ltac reader_step :=
  lazymatch goal with
  | |- reader_only (mbind _ _) => apply reader_only_bind; [|intros ?]
  | |- reader_only (mret _) => apply reader_only_ret
  | |- reader_only (throw _) => apply reader_only_throw
  | |- reader_only (defer_ _ _) => apply reader_only_defer
  | |- reader_only (on_cErr _ _ _) => apply reader_only_on_cErr
  | |- reader_only (native _ _) => apply reader_only_native; discriminate
  | |- reader_only (for_each _ _) => apply reader_only_for_each; intros ?
  | |- reader_only (for_from _ _ _ _) =>
      apply reader_only_for_from; intros ? ?
  | |- reader_only RLock => apply reader_only_RLock
  | |- reader_only RUnlock => apply reader_only_RUnlock
  | |- reader_only load_opened => apply reader_only_load_opened
  | |- reader_only load_c => apply reader_only_load_c
  | |- reader_only load_name => apply reader_only_load_name
  | |- reader_only (C_free _) => apply reader_only_C_free
  | |- reader_only (cByteSlice _) => apply reader_only_cByteSlice
  | |- reader_only (CString _) => apply reader_only_CString
  | |- reader_only (addr_of_first _) => apply reader_only_addr_of_first
  | |- reader_only (store_at _ _ _) => apply reader_only_store_at
  | |- reader_only (load_at _ _) => apply reader_only_load_at
  | |- reader_only (GoBytes _ _) => apply reader_only_GoBytes
  | |- reader_only (if ?b then _ else _) => destruct b
  | |- reader_only (match ?x with _ => _ end) => destruct x
  end.

Ltac unfold_methods :=
  unfold run, UnsafeGetDB, Name, IsOpened, Get, GetBytesNoLock, GetBytes,
    GetCF, MultiGetBytes, convert_result, fail_closed, Put, PutCF, Delete,
    DeleteCF, Merge, MergeCF, Write, NewIterator, NewIteratorCF,
    NewSnapshot, GetProperty, GetPropertyCF, CreateColumnFamily,
    DropColumnFamily, GetApproximateSizes, GetApproximateSizesCF,
    GetApproximateKeyNum, copy_bounds, free_bounds, GetLiveFilesMetaData,
    read_live_file, CompactRange, CompactRangeCF, Flush,
    DisableFileDeletions, EnableFileDeletions, DeleteFilesInRange,
    DeleteFile, Shutdown.

Lemma run_reader_only (op : Op) : op ≠ OClose → reader_only (run engine op).
Proof.
  destruct op; intros Hop; try done; unfold_methods; repeat reader_step.
Qed.

Lemma close_appends (w : World) :
  ∃ es, trace (Close engine w).2 = trace w ++ es.
Proof.
  destruct w as [[[[|rd] [|]] p nm o opn] [|] nx tr]; cbv -[app];
    first [ by exists []; rewrite app_nil_r
          | rewrite <- ?app_assoc; by eexists ].
Qed.

(** No method rewrites the trace of the process, and no method other
    than Close takes or releases the write lock or calls
    [rocksdb_close], however it ends. *)
Theorem only_close_writes (op : Op) (w : World) :
  ∃ es, trace (run engine op w).2 = trace w ++ es
        ∧ (op ≠ OClose → forallb reader_event es = true).
Proof.
  assert (Hop : op = OClose ∨ op ≠ OClose)
    by (destruct op; (by left) || (by right)).
  destruct Hop as [->|Hop].
  - destruct (close_appends w) as [es Hes]. exists es. split; [|done].
    rewrite <- Hes. unfold run, mbind, M_bind.
    by destruct (Close engine w) as [[[]| | |] w1].
  - destruct (run engine op w) as [o w'] eqn:E.
    destruct (run_reader_only op Hop _ _ _ E) as (es & Ht & Hf).
    exists es. by split.
Qed.

(** ** The mutex after a method returns *)

Lemma same_handle_trans (d1 d2 : Z) (w1 w2 w3 : World) :
  same_handle d1 w1 w2 → same_handle d2 w2 w3 → same_handle (d1 + d2) w1 w3.
Proof.
  unfold same_handle. intros (R1 & W1 & C1 & N1 & O1) (R2 & W2 & C2 & N2 & O2).
  split_and!; try congruence. lia.
Qed.

Lemma shifts_conv {A} (m : M A) (d d' : Z) : shifts m d' → d' = d → shifts m d.
Proof. by intros H <-. Qed.

Lemma shifts_ret {A} (a : A) : shifts (mret a : M A) 0.
Proof.
  intros w a' w' [= <- <-]. unfold same_handle. split_and!; try done. lia.
Qed.

Lemma shifts_throw {A} (p : panic) : shifts (throw p : M A) 0.
Proof. by intros w a w'. Qed.

Lemma shifts_bind {A B} (m : M A) (f : A → M B) (d1 d2 : Z) :
  shifts m d1 → (∀ a, shifts (f a) d2) → shifts (m ≫= f) (d1 + d2).
Proof.
  intros Hm Hf w b w'. unfold mbind, M_bind.
  destruct (m w) as [[a| | |] w1] eqn:E; [|done..].
  intros Hk. eapply same_handle_trans; [by eapply Hm | by eapply Hf].
Qed.

Lemma shifts_defer {A} (d : M unit) (body : M A) (d1 d2 : Z) :
  shifts body d1 → shifts d d2 → shifts (defer_ d body) (d1 + d2).
Proof.
  intros Hb Hd w a w'. unfold defer_.
  destruct (body w) as [[a1| | |] w1] eqn:E; [| |done..].
  - intros Hk. eapply same_handle_trans; [by eapply Hb|].
    unfold mbind, M_bind in Hk.
    destruct (d w1) as [[[]| | |] w2] eqn:E2; [|done..].
    injection Hk as <- <-. by eapply Hd.
  - unfold mbind, M_bind. by destruct (d w1) as [[[]| | |] w2].
Qed.

Lemma shifts_silent {A} (m : M A) :
  (∀ w, db (m w).2 = db w) → shifts m 0.
Proof.
  intros Hm w a w' E. specialize (Hm w). rewrite E in Hm. simpl in Hm.
  unfold same_handle. rewrite Hm. split_and!; try done. lia.
Qed.

Lemma shifts_RLock : shifts RLock 1.
Proof.
  intros [[[rd wr] p nm o opn] lv nx tr] a w'. unfold RLock. simpl.
  destruct wr; [done|]. intros [= <- <-]. unfold same_handle.
  cbn -[Z.of_nat Z.add]. split_and!; try done. lia.
Qed.

Lemma shifts_RUnlock : shifts RUnlock (-1).
Proof.
  intros [[[rd wr] p nm o opn] lv nx tr] a w'. unfold RUnlock. simpl.
  destruct rd; [done|]. intros [= <- <-]. unfold same_handle.
  cbn -[Z.of_nat Z.add]. split_and!; try done. lia.
Qed.

Lemma shifts_native (call : NativeCall) : shifts (native engine call) 0.
Proof.
  apply shifts_silent. intros w. unfold native.
  by destruct (uses_db call && negb (live w)).
Qed.

Lemma shifts_addr_of_first {A} (l : list A) : shifts (addr_of_first l) 0.
Proof. destruct l; [apply shifts_throw | apply shifts_ret]. Qed.

Lemma shifts_store_at {A} (l : list A) (i : nat) (x : A) :
  shifts (store_at l i x) 0.
Proof.
  unfold store_at. destruct (GoSlice.store _ _ _);
    [apply shifts_ret | apply shifts_throw].
Qed.

Lemma shifts_load_at {A} (l : list A) (i : nat) : shifts (load_at l i) 0.
Proof.
  unfold load_at. destruct (GoSlice.index _ _);
    [apply shifts_ret | apply shifts_throw].
Qed.

Lemma shifts_for_from {St} (body : nat → St → M St) (n : nat) :
  (∀ i s, shifts (body i s) 0) → ∀ i s, shifts (for_from i n body s) 0.
Proof.
  intros Hbody. induction n as [|n IH]; intros i s; simpl.
  - apply shifts_ret.
  - apply (shifts_bind _ _ 0 0); [apply Hbody|]. intros s'. apply IH.
Qed.

Lemma shifts_for_each {A B} (body : A → M B) (l : list A) :
  (∀ x, shifts (body x) 0) → shifts (for_each body l) 0.
Proof.
  intros Hbody. induction l as [|x l IH]; simpl.
  - apply shifts_ret.
  - apply (shifts_bind _ _ 0 0); [apply Hbody|]. intros y.
    apply (shifts_bind _ _ 0 0); [apply IH|]. intros ys. apply shifts_ret.
Qed.

Lemma shifts_GoBytes (b : bytes) (n : Z) : shifts (GoBytes b n) 0.
Proof.
  unfold GoBytes. case_decide; [apply shifts_throw | apply shifts_ret].
Qed.

Lemma shifts_on_cErr {A} (cErr : option string) (fail : error → A)
    (ok : M A) :
  shifts ok 0 → shifts (on_cErr cErr fail ok) 0.
Proof.
  intros Hok. destruct cErr; simpl; [|done].
  apply (shifts_defer _ _ 0 0); [apply shifts_ret|].
  by apply shifts_silent.
Qed.

Ltac shifts_go :=
  eapply shifts_conv;
  [ lazymatch goal with
    | |- shifts (mbind _ _) _ =>
        eapply shifts_bind; [shifts_go | intros ?; shifts_go]
    | |- shifts (mret _) _ => apply shifts_ret
    | |- shifts (throw _) _ => apply shifts_throw
    | |- shifts (defer_ _ _) _ =>
        eapply shifts_defer; [shifts_go | shifts_go]
    | |- shifts (on_cErr _ _ _) _ => apply shifts_on_cErr; shifts_go
    | |- shifts (native _ _) _ => apply shifts_native
    | |- shifts (for_each _ _) _ =>
        apply shifts_for_each; intros ?; shifts_go
    | |- shifts (for_from _ _ _ _) _ =>
        apply shifts_for_from; intros ? ?; shifts_go
    | |- shifts RLock _ => apply shifts_RLock
    | |- shifts RUnlock _ => apply shifts_RUnlock
    | |- shifts load_opened _ => by apply shifts_silent
    | |- shifts load_c _ => by apply shifts_silent
    | |- shifts load_name _ => by apply shifts_silent
    | |- shifts (C_free _) _ => by apply shifts_silent
    | |- shifts (cByteSlice _) _ => by apply shifts_silent
    | |- shifts (CString _) _ => by apply shifts_silent
    | |- shifts (addr_of_first _) _ => apply shifts_addr_of_first
    | |- shifts (store_at _ _ _) _ => apply shifts_store_at
    | |- shifts (load_at _ _) _ => apply shifts_load_at
    | |- shifts (GoBytes _ _) _ => apply shifts_GoBytes
    | |- shifts (if ?b then _ else _) _ => destruct b; shifts_go
    | |- shifts (match ?x with _ => _ end) _ => destruct x; shifts_go
    end
  | reflexivity ].

Lemma run_shifts (op : Op) : op ≠ OClose → shifts (run engine op) 0.
Proof.
  destruct op; intros Hop; try done; unfold_methods; shifts_go.
Qed.

Lemma close_restores (w : World) (w' : World) :
  Close engine w = (Done (), w') →
  mu (db w') = mu (db w) ∧ c (db w') = c (db w)
  ∧ name (db w') = name (db w) ∧ opts (db w') = opts (db w).
Proof.
  destruct w as [[[[|rd] [|]] p nm o opn] [|] nx tr]; cbv -[app];
    intros [= <-]; done.
Qed.

(** A method that returns leaves the mutex as it found it, with every
    lock it took released, and leaves the pointer, the name and the
    options of the handle alone. *)
Theorem returning_method_releases_locks (op : Op) (w : World) (r : Result)
    (w' : World) :
  run engine op w = (Done r, w') →
  mu (db w') = mu (db w) ∧ c (db w') = c (db w)
  ∧ name (db w') = name (db w) ∧ opts (db w') = opts (db w).
Proof.
  assert (Hop : op = OClose ∨ op ≠ OClose)
    by (destruct op; (by left) || (by right)).
  destruct Hop as [->|Hop].
  - unfold run, mbind, M_bind.
    destruct (Close engine w) as [[[]| | |] w1] eqn:E; [|done..].
    intros [= _ <-]. by apply close_restores.
  - intros E. destruct (run_shifts op Hop _ _ _ E) as (R & W & C & N & O).
    split_and!; try done.
    destruct (mu (db w')) as [rd' wr'], (mu (db w)) as [rd wr]. simpl in *.
    f_equal; [lia|done].
Qed.

(** ** Methods after Close *)

Ltac split_world w :=
  destruct w as [[[rd wr] p nm o opn] lv nx tr]; simpl.

(** After Close on an open handle, IsOpened is false and every method
    that tests [db.opened] (the batch read apart) returns its closed
    result, the error [errDBClosed] where it has an error; the only
    engine call of the two is [rocksdb_close], and the mutex is free
    again. *)
Theorem guarded_method_after_close (op : Op) (r0 : Result) (w : World) :
  closed_result op = Some r0 →
  writer (mu (db w)) = false → readers (mu (db w)) = 0%nat →
  live w = true →
  (∃ w', (Close engine;; run engine op) w = (Done r0, w')
         ∧ calls (trace w') = calls (trace w) ++ [rocksdb_close]
         ∧ opened (db w') = 0 ∧ live w' = false
         ∧ mu (db w') = mu (db w))
  ∧ ∃ w', (Close engine;; IsOpened) w = (Done false, w').
Proof.
  split_world w. intros Hop -> -> ->. split; [|by eexists].
  destruct op; try discriminate Hop;
    try match goal with rs : list Range |- _ => destruct rs end;
    simpl in Hop; injection Hop as <-;
    eexists; (split; [cbv -[app]; reflexivity|]); simpl;
    rewrite ?calls_app; simpl; rewrite ?app_nil_r; done.
Qed.

(** After Close on an open handle, each of Put, PutCF, Delete, DeleteCF,
    Write, CreateColumnFamily, DropColumnFamily and DeleteFilesInRange
    passes [db.c] to the engine although the instance behind it is
    destroyed: no test of [db.opened] stops it. *)
Theorem unguarded_method_after_close (op : Op) (w : World) :
  unguarded_op op = true →
  writer (mu (db w)) = false → readers (mu (db w)) = 0%nat →
  live w = true →
  ∃ w' call,
    (Close engine;; run engine op) w = (Undefined, w')
    ∧ calls (trace w') = calls (trace w) ++ [rocksdb_close; call]
    ∧ uses_db call = true.
Proof.
  split_world w. intros Hop -> -> ->.
  destruct op; try discriminate Hop;
    eexists _, _; (split; [cbv -[app]; reflexivity|]); simpl;
    rewrite ?calls_app; simpl; rewrite ?app_nil_r, <- ?app_assoc; done.
Qed.

(** ** Exclusion between Close and the readers *)

Lemma copy_events_imap (keyList : list (slice Byte.byte)) (nx : nat) :
  forallb copy_event (imap (λ i k, EvCByteSlice (nx + i) k) keyList) = true.
Proof.
  revert nx. induction keyList as [|k l IH]; intros nx; [done|].
  simpl. rewrite <- (IH (S nx)). f_equal. apply imap_ext.
  intros i x _. simpl. f_equal. lia.
Qed.

Lemma locking_method_waits (op : Op) (w : World) :
  locking_op op = true →
  writer (mu (db w)) = true →
  ∃ w' es,
    run engine op w
      = (match returns_before_lock op with
         | Some r => Done r
         | None => Blocked
         end, w')
    ∧ trace w' = trace w ++ es
    ∧ forallb copy_event es = true
    ∧ db w' = db w ∧ live w' = live w.
Proof.
  split_world w. intros Hop ->.
  destruct op; try discriminate Hop;
    try match goal with rs : list Range |- _ => destruct rs end.
  all: lazymatch goal with
       | |- context [OMultiGetBytes] =>
           eexists _, _; split;
           [ unfold run, MultiGetBytes; unfold mbind at 1;
             unfold M_bind at 1; unfold mbind at 1; unfold M_bind at 1;
             rewrite for_each_cByteSlice; reflexivity
           | simpl; split_and!; try done; apply copy_events_imap ]
       | |- _ =>
           eexists _, _; (split; [cbv -[app]; reflexivity|]); simpl;
           first [ split; [reflexivity|]
                 | split; [instantiate (1 := []); by rewrite app_nil_r|] ];
           by split_and!
       end.
Qed.

Lemma close_waits (w : World) :
  writer (mu (db w)) = true ∨ readers (mu (db w)) ≠ 0%nat →
  run engine OClose w = (Blocked, w).
Proof.
  split_world w. intros [->|Hrd]; [done|].
  destruct wr; [done|]. by destruct rd.
Qed.

(** While the write lock is held, a method that takes the read lock
    waits for it: it does not return, and all it has done by then is to
    make the C copies of its arguments (no lock event, no engine call,
    nothing freed), with the handle and the engine instance as they
    were.  The one exception is a range query with no ranges, which
    returns its empty result before it locks.  While any lock is held,
    Close waits and changes nothing. *)
Theorem close_excludes_readers (op : Op) (w : World) :
  (locking_op op = true → writer (mu (db w)) = true →
     ∃ w' es,
       run engine op w
         = (match returns_before_lock op with
            | Some r => Done r
            | None => Blocked
            end, w')
       ∧ trace w' = trace w ++ es
       ∧ forallb copy_event es = true
       ∧ db w' = db w ∧ live w' = live w)
  ∧ (writer (mu (db w)) = true ∨ readers (mu (db w)) ≠ 0%nat →
     run engine OClose w = (Blocked, w)).
Proof. split; [apply locking_method_waits | apply close_waits]. Qed.

(** GetBytesNoLock, NewIterator, NewIteratorCF and NewSnapshot never
    touch the mutex: whatever its state they do not wait and leave the
    handle as it is; on a closed handle they return [errDBClosed] with
    no event at all. *)
Theorem lock_free_methods (op : Op) (w : World) :
  lock_free_guarded_op op = true →
  ∃ o w' es,
    run engine op w = (o, w')
    ∧ o ≠ Blocked
    ∧ trace w' = trace w ++ es
    ∧ forallb (λ e, negb (lock_event e)) es = true
    ∧ db w' = db w
    ∧ (opened (db w) = 0 →
       es = [] ∧ ∃ r, o = Done r ∧ error_of r = Some (Some errDBClosed)).
Proof.
  split_world w. intros Hop.
  destruct (decide (opn = 0)) as [->|Hopn].
  - destruct op; try discriminate Hop;
      eexists _, _, []; (split; [cbv -[app]; reflexivity|]);
      rewrite app_nil_r; (split_and!; try done);
      intros _; (split; [done|]); by eexists.
  - destruct op; try discriminate Hop; destruct lv;
      unfold run, GetBytesNoLock, NewIterator, NewIteratorCF, NewSnapshot,
        mbind, M_bind, load_opened; simpl;
      rewrite decide_False by done;
      cbv -[app C_int GoBytes Z.of_nat length];
      try split_reply_all;
      unfold GoBytes; try case_decide;
      cbv -[app C_int Z.of_nat Z.to_nat length take];
      eexists _, _, _; (split; [reflexivity|]); simpl;
      rewrite <- ?app_assoc;
      (split_and!; [done|reflexivity|done|done|done]).
Qed.

(** ** Reading one key *)

Lemma C_int_small (z : Z) : 0 <= z < 2 ^ 31 → C_int z = z.
Proof.
  intros Hz. unfold C_int.
  rewrite Z.mod_small by lia. lia.
Qed.

Lemma GoBytes_whole (b : bytes) :
  Z.of_nat (length b) < 2 ^ 31 →
  GoBytes b (C_int (Z.of_nat (length b))) = mret b.
Proof.
  intros Hb. unfold GoBytes. rewrite C_int_small by lia.
  rewrite decide_False by lia. rewrite Nat2Z.id. by rewrite firstn_all.
Qed.

(** On an open handle, when the engine reports no error for the key:
    for a value of less than 2^31 bytes GetBytes returns the bytes and
    frees the engine's buffer after the lock is released, while Get
    hands the buffer over in a Slice and frees nothing; for a missing
    key (a NULL value) GetBytes returns nil with a nil error and Get
    returns a Slice around the NULL pointer, and there is nothing to
    free. *)
Theorem get_bytes_copies_and_frees (opts : ReadOptions)
    (key : slice Byte.byte) (w : World) :
  opened (db w) = 1 → live w = true → writer (mu (db w)) = false →
  r_err (engine (trace w ++ [EvRLock]) (rocksdb_get opts (data key)))
    = None →
  let r := engine (trace w ++ [EvRLock]) (rocksdb_get opts (data key)) in
  let called := [EvRLock; EvCall (rocksdb_get opts (data key)); EvRUnlock] in
  (∀ b, r_value r = Some b → Z.of_nat (length b) < 2 ^ 31 →
     (GetBytes engine opts key w).1 = Done (Some b, None)
     ∧ trace (GetBytes engine opts key w).2
       = trace w ++ called ++ [EvFree (EngineBuf b)]
     ∧ (Get engine opts key w).1 = Done (Some (NewSlice (Some b)), None)
     ∧ trace (Get engine opts key w).2 = trace w ++ called)
  ∧ (r_value r = None →
     (GetBytes engine opts key w).1 = Done (None, None)
     ∧ trace (GetBytes engine opts key w).2 = trace w ++ called
     ∧ (Get engine opts key w).1 = Done (Some (NewSlice None), None)
     ∧ trace (Get engine opts key w).2 = trace w ++ called).
Proof.
  split_world w. intros -> -> -> Herr.
  unfold GetBytes, Get, mbind, M_bind, RLock, load_opened, native. simpl.
  destruct (engine (tr ++ [EvRLock]) (rocksdb_get opts (data key)))
    as [v e ? ? ? ? ? ? ? ? ?]. simpl in *. subst e.
  split.
  - intros b -> Hb. simpl. rewrite (GoBytes_whole b Hb). simpl.
    by rewrite <- !app_assoc.
  - intros ->. simpl. by rewrite <- !app_assoc.
Qed.

(** ** Manual compaction *)

(** On an open handle CompactRange takes the read lock and then, when
    Start and Limit are both nil, calls the engine with nil bounds and
    unlocks: [cByteSlice] is not called and nothing is freed.
    Otherwise it calls [cByteSlice] on Start and then on Limit, calls
    the engine on the bytes of Start and of Limit, unlocks, and only
    then frees the two pointers that [cByteSlice] returned, Limit's
    first.
    CompactRangeCF does the latter for every range, two nil bounds
    included.  The handle is as it was. *)
Theorem compact_range_bounds (cf : ColumnFamilyHandle) (r : Range)
    (w : World) :
  opened (db w) = 1 → live w = true → writer (mu (db w)) = false →
  ∃ w1 cStart w2 cLimit w3,
    RLock w = (Done (), w1)
    ∧ cByteSlice (Start r) w1 = (Done cStart, w2)
    ∧ cByteSlice (Limit r) w2 = (Done cLimit, w3)
    ∧ (CompactRange engine r w).1 = Done ()
    ∧ trace (CompactRange engine r w).2
      = (if bool_decide (Start r = None ∧ Limit r = None)
         then trace w1 ++ [EvCall (rocksdb_compact_range None None);
                           EvRUnlock]
         else trace w3
                ++ [EvCall (rocksdb_compact_range (Some (data (Start r)))
                              (Some (data (Limit r))));
                    EvRUnlock; EvFree cLimit; EvFree cStart])
    ∧ (CompactRangeCF engine cf r w).1 = Done ()
    ∧ trace (CompactRangeCF engine cf r w).2
      = trace w3
          ++ [EvCall (rocksdb_compact_range_cf cf (data (Start r))
                        (data (Limit r)));
              EvRUnlock; EvFree cLimit; EvFree cStart]
    ∧ db (CompactRange engine r w).2 = db w
    ∧ db (CompactRangeCF engine cf r w).2 = db w.
Proof.
  split_world w. intros -> -> ->. eexists _, _, _, _, _.
  split; [reflexivity|]. split; [reflexivity|]. split; [reflexivity|].
  destruct r as [[s|] [l|]]; cbv -[app]; rewrite <- ?app_assoc; done.
Qed.

(** ** The batch read on an open handle *)

Lemma written_lookup {A} (n : nat) (zero : A) (l : list A) (i : nat) :
  (i < n)%nat → written n zero l !! i = Some (default zero (l !! i)).
Proof.
  intros Hi. unfold written. rewrite lookup_take_lt by done.
  destruct (decide (i < length l)%nat) as [Hl|Hl].
  - rewrite lookup_app_l by done.
    destruct (lookup_lt_is_Some_2 l i Hl) as [x ->]. done.
  - rewrite lookup_app_r by lia. rewrite (lookup_ge_None_2 l i) by lia.
    simpl. apply lookup_replicate_2. lia.
Qed.

Lemma written_length {A} (n : nat) (zero : A) (l : list A) :
  length (written n zero l) = n.
Proof.
  unfold written. rewrite length_take, length_app, length_replicate. lia.
Qed.

Lemma convert_result_step (cKeys : list cptr) (cValues : list (option bytes))
    (cErrs : list (option string)) (i : nat)
    (values : list (slice Byte.byte)) (errs : list (option error))
    (p : cptr) (cv : option bytes) (ce : option string) (w : World) :
  (i < length values)%nat → (i < length errs)%nat →
  cKeys !! i = Some p → cValues !! i = Some cv → cErrs !! i = Some ce →
  (∀ b, cv = Some b → Z.of_nat (length b) < 2 ^ 31) →
  convert_result cKeys cValues cErrs i (values, errs) w
  = (Done (<[i:=read_value cv ce]> values,
           match ce with
           | None => errs
           | Some e => <[i:=Some (errorsNew e)]> errs
           end),
     logs (read_frees cv ce ++ [EvFree p]) w).
Proof.
  intros Hv He Hp Hcv Hce Hsmall. destruct w as [d lv nx tr].
  unfold convert_result, store_at, load_at, GoSlice.store. cbn [fst snd].
  rewrite !index_lookup, Hp, Hce, Hcv.
  rewrite !decide_True by lia. rewrite Nat2Z.id.
  destruct ce as [e|], cv as [b|];
    unfold mbind, M_bind, mret, M_ret, C_free, log, logs; simpl;
    rewrite ?GoBytes_whole by (by apply Hsmall);
    unfold mret, M_ret; simpl;
    repeat (rewrite decide_True by lia; simpl);
    rewrite <- ?app_assoc; done.
Qed.

Lemma convert_result_loop (cKeys : list cptr)
    (cValues : list (option bytes)) (cErrs : list (option string))
    (n : nat) : ∀ i values errs w,
  (i + n ≤ length values)%nat → (i + n ≤ length errs)%nat →
  (i + n ≤ length cKeys)%nat → (i + n ≤ length cValues)%nat →
  (i + n ≤ length cErrs)%nat →
  (∀ j b, cValues !! j = Some (Some b) → Z.of_nat (length b) < 2 ^ 31) →
  ∃ values' errs' evs,
    for_from i n (convert_result cKeys cValues cErrs) (values, errs) w
      = (Done (values', errs'), logs evs w)
    ∧ length values' = length values ∧ length errs' = length errs
    ∧ (∀ j, (j < i ∨ i + n ≤ j)%nat →
         values' !! j = values !! j ∧ errs' !! j = errs !! j)
    ∧ (∀ j cv ce, (i ≤ j < i + n)%nat →
         cValues !! j = Some cv → cErrs !! j = Some ce →
         values' !! j = Some (read_value cv ce)
         ∧ errs' !! j = read_err ce <$> errs !! j)
    ∧ forallb free_event evs = true
    ∧ (∀ j p, (i ≤ j < i + n)%nat → cKeys !! j = Some p → EvFree p ∈ evs).
Proof.
  induction n as [|n IH]; intros i values errs w Hv He Hk Hcv Hce Hsmall.
  - exists values, errs, []. simpl. split_and!; try done.
    + unfold logs. rewrite app_nil_r. by destruct w.
    + intros j cv ce Hj. lia.
    + intros j p Hj. lia.
  - destruct (lookup_lt_is_Some_2 cKeys i) as [p Hp]; [lia|].
    destruct (lookup_lt_is_Some_2 cValues i) as [cv Hcvi]; [lia|].
    destruct (lookup_lt_is_Some_2 cErrs i) as [ce Hcei]; [lia|].
    simpl. unfold mbind at 1. unfold M_bind at 1.
    rewrite (convert_result_step _ _ _ i values errs p cv ce)
      by (done || lia || (intros b ->; by apply (Hsmall i))).
    set (errs1 := match ce with
                  | None => errs
                  | Some e => <[i:=Some (errorsNew e)]> errs
                  end).
    assert (Hlen1 : length errs1 = length errs)
      by (subst errs1; destruct ce; by rewrite ?length_insert).
    destruct (IH (S i) (<[i:=read_value cv ce]> values) errs1
                (logs (read_frees cv ce ++ [EvFree p]) w))
      as (values' & errs' & evs & Hrun & Hlv & Hle & Hout & Hin & Hfree & Hkeys);
      rewrite ?length_insert, ?Hlen1; try lia; try done.
    exists values', errs', ((read_frees cv ce ++ [EvFree p]) ++ evs).
    split_and!.
    + rewrite Hrun. unfold logs. simpl. by rewrite <- !app_assoc.
    + by rewrite Hlv, length_insert.
    + by rewrite Hle.
    + intros j Hj. destruct (Hout j) as [H1 H2]; [lia|].
      rewrite H1, H2. rewrite list_lookup_insert_ne by lia.
      split; [done|]. subst errs1. destruct ce; [|done].
      by rewrite list_lookup_insert_ne by lia.
    + intros j cv' ce' Hj Hcv' Hce'.
      destruct (decide (j = i)) as [->|Hne].
      * rewrite Hcvi in Hcv'. rewrite Hcei in Hce'.
        injection Hcv' as <-. injection Hce' as <-.
        destruct (Hout i) as [H1 H2]; [lia|]. rewrite H1, H2.
        rewrite list_lookup_insert_eq by lia. split; [done|].
        subst errs1. destruct ce as [e|]; simpl.
        -- rewrite list_lookup_insert_eq by lia.
           destruct (lookup_lt_is_Some_2 errs i) as [x ->]; [lia|]. done.
        -- by destruct (errs !! i).
      * destruct (Hin j cv' ce') as [H1 H2]; [lia|done|done|].
        split; [done|]. rewrite H2. subst errs1. destruct ce; [|done].
        by rewrite list_lookup_insert_ne by lia.
    + rewrite !forallb_app, Hfree. simpl. by destruct ce, cv.
    + intros j q Hj Hq. destruct (decide (j = i)) as [->|Hne].
      * rewrite Hp in Hq. injection Hq as <-.
        rewrite !elem_of_app, list_elem_of_singleton. auto.
      * apply elem_of_app. right. apply (Hkeys j); [lia|done].
Qed.

Lemma written_Some {A} (n : nat) (l : list (option A)) (j : nat) (x : A) :
  written n None l !! j = Some (Some x) → l !! j = Some (Some x).
Proof.
  destruct (decide (j < n)%nat) as [Hj|Hj].
  - rewrite written_lookup by done. by destruct (l !! j) as [[y|]|].
  - rewrite lookup_ge_None_2; [done|]. rewrite written_length. lia.
Qed.

Lemma addr_of_first_length {A} (l : list A) :
  (0 < length l)%nat → addr_of_first l = mret ().
Proof. destruct l; simpl; intros; [lia|done]. Qed.

Lemma calls_of_frees (evs : list Event) :
  forallb free_event evs = true → calls evs = [].
Proof.
  induction evs as [|e evs IH]; [done|]. simpl.
  destruct e; simpl; first [done | exact IH].
Qed.

(** On an open handle, a batch read of at least one key, with room in
    [values] and [errs] for every key and engine values of less than
    2^31 bytes, makes one engine call under the read lock and returns.
    For a key with an engine error it stores nil and an error with the
    engine's message; for a key without one it stores the value (nil
    when there is none) and leaves [errs[i]] as the caller passed it.
    Slots beyond the keys are untouched, every key buffer is freed and
    the lock is released. *)
Theorem multi_get_open (opts : ReadOptions)
    (keyList : list (slice Byte.byte)) (values : list (slice Byte.byte))
    (errs : list (option error)) (w : World) :
  opened (db w) = 1 → live w = true → writer (mu (db w)) = false →
  keyList ≠ [] →
  (length keyList ≤ length values)%nat →
  (length keyList ≤ length errs)%nat →
  let n := length keyList in
  let call := rocksdb_multi_get opts (Z.of_nat n) (data <$> keyList) in
  let r := engine (trace w
                   ++ imap (λ i k, EvCByteSlice (next w + i) k) keyList
                   ++ [EvRLock]) call in
  (∀ i b, r_values r !! i = Some (Some b) → Z.of_nat (length b) < 2 ^ 31) →
  ∃ values' errs' w',
    MultiGetBytes engine opts keyList values errs w
      = (Done (values', errs'), w')
    ∧ length values' = length values ∧ length errs' = length errs
    ∧ (∀ i, (i < n)%nat →
         values' !! i
           = Some (match default None (r_errs r !! i),
                         default None (r_values r !! i) with
                   | None, Some b => Some b
                   | _, _ => None
                   end)
         ∧ errs' !! i = read_err (default None (r_errs r !! i)) <$> errs !! i)
    ∧ (∀ i, (n ≤ i)%nat →
         values' !! i = values !! i ∧ errs' !! i = errs !! i)
    ∧ calls (trace w') = calls (trace w) ++ [call]
    ∧ db w' = db w
    ∧ (∀ i, (i < n)%nat → EvFree (HostBuf (next w + i)) ∈ trace w').
Proof.
  intros Ho Hl Hw Hne Hv He n call r Hsmall.
  destruct w as [[[rd wr] p nm o opn] lv nx tr].
  cbn [db mu opened live writer trace next] in *. subst opn lv wr.
  assert (Hn : (0 < n)%nat) by (subst n; destruct keyList; simpl; [done|lia]).
  unfold MultiGetBytes. unfold mbind at 1. unfold M_bind at 1.
  rewrite for_each_cByteSlice. cbn [db live next trace].
  rewrite !addr_of_first_length
    by (rewrite ?length_fmap, ?length_seq, ?length_replicate; lia).
  unfold mbind, M_bind, mret, M_ret, RLock, RUnlock, load_opened, native,
    log, set_mu.
  cbn -[for_from written app imap decide].
  rewrite decide_True by done.
  cbn -[for_from written app imap].
  subst r call n. rewrite (app_assoc tr). rewrite (app_assoc tr) in Hsmall.
  set (r := engine _ _) in *.
  match goal with
  | |- context [for_from 0 ?n0 (convert_result ?ck ?cv ?ce) ?st ?w0] =>
      destruct (convert_result_loop ck cv ce n0 0 values errs w0)
        as (values' & errs' & evs & Hrun & Hlv & Hle & Hout & Hin & Hfree
            & Hkeys);
      rewrite ?length_fmap, ?length_seq, ?written_length; try lia;
      try (intros j b Hb; exact (Hsmall j b (written_Some _ _ _ _ Hb)))
  end.
  rewrite Hrun. exists values', errs'. eexists. split; [reflexivity|].
  split_and!; try done.
  - intros i Hi.
    destruct (Hin i (default None (r_values r !! i))
                (default None (r_errs r !! i))) as [Hval Herr];
      [lia|by apply written_lookup..|].
    split; [exact Hval | exact Herr].
  - intros i Hi. apply Hout. lia.
  - unfold logs. cbn [trace]. rewrite !calls_app, calls_cByteSlice.
    rewrite (calls_of_frees evs Hfree). simpl. by rewrite !app_nil_r.
  - intros i Hi. unfold logs. cbn [trace]. apply elem_of_app. right.
    apply (Hkeys i); [lia|].
    rewrite list_lookup_fmap, lookup_seq_lt by done. done.
Qed.



(** ** Approximate sizes on an open handle *)

Lemma host_allocs_app (t1 t2 : list Event) :
  host_allocs (t1 ++ t2) = host_allocs t1 ++ host_allocs t2.
Proof. apply omap_app. Qed.

Lemma host_frees_app (t1 t2 : list Event) :
  host_frees (t1 ++ t2) = host_frees t1 ++ host_frees t2.
Proof. apply omap_app. Qed.

Lemma frees_of_host_bufs (l : list nat) :
  host_frees (EvFree <$> (HostBuf <$> l)) = l
  ∧ host_allocs (EvFree <$> (HostBuf <$> l)) = []
  ∧ calls (EvFree <$> (HostBuf <$> l)) = [].
Proof.
  induction l as [|a l (IH1 & IH2 & IH3)]; [done|].
  rewrite !fmap_cons.
  change (EvFree (HostBuf a) :: ?t) with ([EvFree (HostBuf a)] ++ t).
  rewrite host_frees_app, host_allocs_app, calls_app, IH1, IH2, IH3. done.
Qed.

Lemma for_each_cons_done {A B} (body : A → M B) (x : A) (l : list A)
    (w w1 w2 : World) (y : B) (ys : list B) :
  body x w = (Done y, w1) → for_each body l w1 = (Done ys, w2) →
  for_each body (x :: l) w = (Done (y :: ys), w2).
Proof.
  intros H1 H2. simpl. unfold mbind, M_bind. rewrite H1, H2. done.
Qed.

Lemma copy_bounds_loop (l : list Range) : ∀ w,
  ∃ ptrs evs,
    for_each copy_bounds l w
      = (Done ptrs,
         {| db := db w; live := live w; next := next w + 2 * length l;
            trace := trace w ++ evs |})
    ∧ bound_ptrs ptrs = HostBuf <$> seq (next w) (2 * length l)
    ∧ host_allocs evs = seq (next w) (2 * length l)
    ∧ forallb copy_event evs = true.
Proof.
  induction l as [|r l IH]; intros [d lv nx tr].
  - exists [], []. simpl. unfold mret, M_ret.
    by rewrite Nat.add_0_r, app_nil_r.
  - destruct (IH {| db := d; live := lv; next := S (S nx);
                    trace := (tr ++ [EvCByteSlice nx (Start r)])
                             ++ [EvCByteSlice (S nx) (Limit r)] |})
      as (ptrs & evs & Hrun & Hptrs & Hallocs & Hcopy).
    exists ((HostBuf nx, HostBuf (S nx)) :: ptrs),
           ([EvCByteSlice nx (Start r); EvCByteSlice (S nx) (Limit r)] ++ evs).
    cbn [db live next trace] in *.
    replace (2 * length (r :: l))%nat with (S (S (2 * length l)))
      by (simpl; lia).
    split_and!.
    + erewrite for_each_cons_done; [|reflexivity|exact Hrun].
      f_equal. f_equal; [lia | by rewrite <- !app_assoc].
    + change (bound_ptrs ((HostBuf nx, HostBuf (S nx)) :: ptrs))
        with (HostBuf nx :: HostBuf (S nx) :: bound_ptrs ptrs).
      rewrite Hptrs. reflexivity.
    + rewrite host_allocs_app, Hallocs. done.
    + done.
Qed.

Lemma free_bounds_loop (ptrs : list (cptr * cptr)) : ∀ w,
  ∃ us, for_each free_bounds ptrs w
        = (Done us, logs (EvFree <$> bound_ptrs ptrs) w).
Proof.
  induction ptrs as [|[s l] ptrs IH]; intros w.
  - exists []. simpl. unfold mret, M_ret, logs. simpl. rewrite app_nil_r.
    by destruct w.
  - destruct (IH (logs [EvFree s; EvFree l] w)) as (us & Hrun).
    exists (() :: us).
    erewrite for_each_cons_done; [| |exact Hrun].
    + unfold logs. simpl. by rewrite <- app_assoc.
    + unfold free_bounds, mbind, M_bind, C_free, logs, log. simpl.
      by rewrite <- app_assoc.
Qed.

Lemma add64_bound (a b : Z) : 0 <= add64 a b < 2 ^ 64.
Proof. unfold add64. apply Z.mod_pos_bound. lia. Qed.

Lemma free_events_fmap (ps : list cptr) :
  forallb free_event (EvFree <$> ps) = true.
Proof. by induction ps. Qed.

(** On an open handle, GetApproximateSizes for at least one range
    returns one size per range: what the engine wrote for the range (0
    where it wrote nothing), plus, with [includeMem], the memtable size,
    added modulo 2^64.  Under the read lock it copies the bounds and
    calls the engine once, or twice with [includeMem]; after the lock
    is released it frees the copies: every buffer that was allocated
    for a bound is freed, once, in the order of allocation.  The handle
    is as it was. *)
Theorem approximate_sizes_open (ranges : list Range) (includeMem : bool)
    (w : World) :
  opened (db w) = 1 → live w = true → writer (mu (db w)) = false →
  ranges ≠ [] →
  let n := length ranges in
  let disk_call :=
    rocksdb_approximate_sizes (C_int (Z.of_nat n)) (bounds <$> ranges) in
  let mem_call :=
    rocksdb_approximate_memtable_sizes (C_int (Z.of_nat n))
      (bounds <$> ranges) in
  ∃ sizes w' copies frees,
    let t1 := trace w ++ [EvRLock] ++ copies in
    let t2 := t1 ++ [EvCall disk_call] in
    GetApproximateSizes engine ranges includeMem w = (Done (Some sizes), w')
    ∧ length sizes = n
    ∧ (∀ i, (i < n)%nat →
         sizes !! i
         = Some (let disk := default 0 (r_sizes (engine t1 disk_call) !! i) in
                 if includeMem
                 then add64 disk
                        (default 0 (r_sizes (engine t2 mem_call) !! i))
                 else disk))
    ∧ trace w'
      = t1 ++ (EvCall <$> disk_call :: (if includeMem then [mem_call] else []))
          ++ [EvRUnlock] ++ frees
    ∧ forallb copy_event copies = true
    ∧ forallb free_event frees = true
    ∧ host_frees frees = host_allocs copies
    ∧ NoDup (host_allocs copies)
    ∧ db w' = db w.
Proof.
  intros Ho Hl Hw Hne n disk_call mem_call.
  destruct w as [[[rd wr] p nm o opn] lv nx tr].
  cbn [db mu opened live writer trace next] in *. subst opn lv wr.
  assert (Hn : n ≠ 0%nat) by (subst n; by destruct ranges).
  unfold GetApproximateSizes. fold n. rewrite decide_False by done.
  unfold mbind at 1 2. unfold M_bind at 1 2.
  unfold RLock, load_opened, log, set_mu.
  cbn [db mu opened live writer readers trace next].
  rewrite decide_False by done.
  unfold mbind at 1. unfold M_bind at 1.
  match goal with
  | |- context [for_each copy_bounds ranges ?w0] =>
      destruct (copy_bounds_loop ranges w0)
        as (ptrs & evs & Hrun & Hptrs & Hallocs & Hcopy);
      rewrite Hrun
  end.
  cbn [db live next trace] in Hptrs, Hallocs.
  destruct (frees_of_host_bufs (seq nx (2 * length ranges)))
    as (Hff & _ & _). rewrite <- Hptrs in Hff.
  clear Hrun. cbn [db mu opened live writer readers trace next c name opts] in *.
  destruct includeMem;
    unfold mbind, M_bind, native, RUnlock, mret, M_ret, log, set_mu;
    cbn -[for_each written app zip_with C_int bound_ptrs];
    match goal with
    | |- context [for_each free_bounds ptrs ?w0] =>
        destruct (free_bounds_loop ptrs w0) as (us & Hfree); rewrite Hfree
    end;
    unfold logs; cbn [db mu opened live writer readers trace next].
  - eexists _, _, evs, (EvFree <$> bound_ptrs ptrs).
    split; [reflexivity|]. cbn [trace db]. split_and!; try done.
    + by rewrite length_zip_with, !written_length, Nat.min_id.
    + intros i Hi. rewrite lookup_zip_with.
      rewrite !written_lookup by done. simpl.
      by rewrite <- !app_assoc.
    + simpl. by rewrite <- !app_assoc.
    + apply free_events_fmap.
    + by rewrite Hff, Hallocs.
    + rewrite Hallocs. apply NoDup_seq.
  - eexists _, _, evs, (EvFree <$> bound_ptrs ptrs).
    split; [reflexivity|]. cbn [trace db]. split_and!; try done.
    + by rewrite written_length.
    + intros i Hi. rewrite written_lookup by done. simpl.
      by rewrite <- !app_assoc.
    + simpl. by rewrite <- !app_assoc.
    + apply free_events_fmap.
    + by rewrite Hff, Hallocs.
    + rewrite Hallocs. apply NoDup_seq.
Qed.

(** ** Opening with column families: the result *)

Lemma cstring_loop (l : list string) : ∀ w,
  ∃ evs,
    for_each CString l w
      = (Done (HostBuf <$> seq (next w) (length l)),
         {| db := db w; live := live w; next := next w + length l;
            trace := trace w ++ evs |})
    ∧ host_allocs evs = seq (next w) (length l)
    ∧ host_frees evs = []
    ∧ calls evs = [].
Proof.
  induction l as [|s l IH]; intros [d lv nx tr].
  - exists []. simpl. unfold mret, M_ret. by rewrite Nat.add_0_r, app_nil_r.
  - destruct (IH {| db := d; live := lv; next := S nx;
                    trace := tr ++ [EvCString nx s] |})
      as (evs & Hrun & Hallocs & Hfrees & Hcalls).
    exists ([EvCString nx s] ++ evs). cbn [db live next trace] in *.
    split_and!.
    + erewrite for_each_cons_done; [|reflexivity|exact Hrun].
      simpl. f_equal. f_equal; [lia | by rewrite <- !app_assoc].
    + rewrite host_allocs_app, Hallocs. done.
    + rewrite host_frees_app, Hfrees. done.
    + rewrite calls_app, Hcalls. done.
Qed.

Lemma free_loop (ps : list cptr) : ∀ w,
  ∃ us, for_each C_free ps w = (Done us, logs (EvFree <$> ps) w).
Proof.
  induction ps as [|q ps IH]; intros w.
  - exists []. simpl. unfold mret, M_ret, logs. simpl. rewrite app_nil_r.
    by destruct w.
  - destruct (IH (logs [EvFree q] w)) as (us & Hrun).
    exists (() :: us).
    erewrite for_each_cons_done; [| |exact Hrun].
    + unfold logs. simpl. by rewrite <- app_assoc.
    + reflexivity.
Qed.

(** OpenDbColumnFamilies with at least one column family and as many
    options as names makes one engine call and returns.  When the engine
    sets no error the result is an open handle ([opened] = 1, the mutex
    free, the engine's pointer) with one column family handle per name;
    when it sets one the result is nil, nil and an error with the
    engine's message, and the message is freed.  Either way the C copies
    of the database name and of every column family name are freed, each
    once. *)
Theorem open_column_families_result (opts : Options) (name : string)
    (cfNames : list string) (cfOpts : list Options) (w : World) :
  cfNames ≠ [] → length cfNames = length cfOpts →
  let n := length cfNames in
  let call :=
    rocksdb_open_column_families opts name (C_int (Z.of_nat n))
      cfNames cfOpts in
  ∃ res w' es t,
    OpenDbColumnFamilies engine opts name cfNames cfOpts w = (Done res, w')
    ∧ (r_err (engine t call) = None →
       ∃ handles,
         res = (Some {| mu := {| readers := 0; writer := false |};
                        c := r_ptr (engine t call); name := name;
                        opts := opts; opened := 1 |},
                Some handles, None)
         ∧ length handles = n
         ∧ ∀ i, (i < n)%nat →
             handles !! i
             = Some (default 0%nat (r_ptrs (engine t call) !! i)))
    ∧ (∀ e, r_err (engine t call) = Some e →
         res = (None, None, Some (errorsNew e))
         ∧ EvFree (EngineStr e) ∈ es)
    ∧ trace w' = trace w ++ es
    ∧ calls es = [call]
    ∧ host_allocs es = seq (next w) (S n)
    ∧ host_frees es = seq (S (next w)) n ++ [next w]
    ∧ db w' = db w ∧ live w' = live w.
Proof.
  intros Hne Hlen n call.
  destruct w as [d lv nx tr]. cbn [db live next trace].
  assert (Hn : (0 < n)%nat) by (subst n; destruct cfNames; simpl; [done|lia]).
  subst call. unfold OpenDbColumnFamilies. rewrite decide_False by lia.
  unfold mbind at 1. unfold M_bind at 1. unfold CString at 1. unfold alloc.
  cbn [db live next trace].
  unfold defer_ at 1. unfold mbind at 1. unfold M_bind at 1.
  match goal with
  | |- context [for_each CString cfNames ?w0] =>
      destruct (cstring_loop cfNames w0)
        as (evs & Hrun & Hallocs & Hfrees & Hcalls);
      rewrite Hrun
  end.
  cbn [db live next trace] in *. clear Hrun.
  unfold defer_ at 1.
  rewrite !addr_of_first_length
    by (rewrite ?length_fmap, ?length_seq, ?length_replicate; lia).
  unfold mbind at 1 2 3 4. unfold M_bind at 1 2 3 4.
  unfold mret at 1 2 3. unfold M_ret at 1 2 3.
  unfold native. cbn [uses_db andb db live next trace].
  fold n.
  set (call := rocksdb_open_column_families opts name (C_int (Z.of_nat n))
                 cfNames cfOpts).
  set (t := (tr ++ [EvCString nx name]) ++ evs).
  set (r := engine t call).
  destruct (frees_of_host_bufs (seq (S nx) n)) as (Hff & Hfa & Hfc).
  destruct (r_err r) as [e|] eqn:Herr;
    unfold on_cErr, defer_, mbind, M_bind, mret, M_ret, C_free, log;
    cbn [db live next trace];
    match goal with
    | |- context [for_each ?f ?ps ?w0] =>
        destruct (free_loop ps w0) as (us & Hfree);
        change (for_each f ps w0) with (for_each C_free ps w0);
        rewrite Hfree
    end;
    unfold logs; cbn [db live next trace].
  - eexists _, _,
      ([EvCString nx name] ++ evs ++ [EvCall call; EvFree (EngineStr e)]
       ++ (EvFree <$> (HostBuf <$> seq (S nx) n)) ++ [EvFree (HostBuf nx)]),
      t.
    fold r. rewrite Herr. split; [reflexivity|]. cbn [db live trace].
    split_and!; try done.
    + intros e' [= <-]. split; [done|].
      rewrite !elem_of_app. right. right. left.
      apply list_elem_of_In. simpl. auto.
    + unfold t. by rewrite <- !app_assoc.
    + rewrite !calls_app, Hcalls, Hfc. done.
    + rewrite !host_allocs_app, Hallocs, Hfa. simpl. by rewrite app_nil_r.
    + rewrite !host_frees_app, Hfrees, Hff. done.
  - eexists _, _,
      ([EvCString nx name] ++ evs ++ [EvCall call]
       ++ (EvFree <$> (HostBuf <$> seq (S nx) n)) ++ [EvFree (HostBuf nx)]),
      t.
    fold r. rewrite Herr. split; [reflexivity|]. cbn [db live trace].
    split_and!; try done.
    + intros _. eexists. split; [reflexivity|].
      unfold NewNativeColumnFamilyHandle. rewrite list_fmap_id.
      split; [apply written_length|]. intros i Hi. by apply written_lookup.
    + unfold t. by rewrite <- !app_assoc.
    + rewrite !calls_app, Hcalls, Hfc. done.
    + rewrite !host_allocs_app, Hallocs, Hfa. simpl. by rewrite app_nil_r.
    + rewrite !host_frees_app, Hfrees, Hff. done.
Qed.

(** ** Reading a property *)

(** On an open handle GetProperty returns the string the engine
    returned for the property, and the empty string when the engine
    returned NULL, so an unknown property reads like an empty one.  The
    C copy of the property name and the engine's string are both freed,
    after the lock is released, and the handle is unchanged. *)
Theorem get_property_open (propName : string) (w : World) :
  opened (db w) = 1 → live w = true → writer (mu (db w)) = false →
  let call := rocksdb_property_value propName in
  let t := trace w ++ [EvCString (next w) propName; EvRLock] in
  (GetProperty engine propName w).1
    = Done (default EmptyString (r_str (engine t call)))
  ∧ trace (GetProperty engine propName w).2
    = t ++ [EvCall call; EvRUnlock;
            EvFree (match r_str (engine t call) with
                    | Some s => EngineStr s
                    | None => NULL
                    end);
            EvFree (HostBuf (next w))]
  ∧ db (GetProperty engine propName w).2 = db w.
Proof.
  intros Ho Hl Hw. destruct w as [[[rd wr] p nm o opn] lv nx tr].
  cbn [db mu opened live writer trace next] in *. subst opn lv wr.
  cbv -[app]. rewrite <- !app_assoc. simpl.
  destruct (engine _ _) as [? ? ? ? ? ? [s|] ? ? ?]; done.
Qed.

(** ** Failures: engine errors and the closed engine *)











End db_more.

Lemma only_close_writes_witness :
  ∃ es, DB.trace (DB.run silent_engine (DB.OFlush 0%nat) open_handle).2
        = DB.trace open_handle ++ es
      ∧ forallb reader_event es = true.
Proof.
  destruct (only_close_writes silent_engine (DB.OFlush 0%nat) open_handle)
    as (es & Ht & Hf).
  exists es. split; [exact Ht | apply Hf; discriminate].
Defined.

Lemma returning_method_releases_locks_witness :
  ∃ w', DB.run silent_engine (DB.OGetProperty "rocksdb.stats") open_handle
          = (DB.Done (DB.RString ""), w')
        ∧ DB.mu (DB.db w') = DB.mu (DB.db open_handle)
        ∧ DB.c (DB.db w') = DB.c (DB.db open_handle)
        ∧ DB.name (DB.db w') = DB.name (DB.db open_handle)
        ∧ DB.opts (DB.db w') = DB.opts (DB.db open_handle).
Proof.
  eexists. split; [reflexivity|].
  apply (returning_method_releases_locks silent_engine
           (DB.OGetProperty "rocksdb.stats") open_handle (DB.RString ""));
    reflexivity.
Defined.

Lemma guarded_method_after_close_witness :
  ∃ w', (DB.Close silent_engine;; DB.run silent_engine (DB.OFlush 0%nat))
          open_handle
        = (DB.Done (DB.RErr (Some DB.errDBClosed)), w')
      ∧ DB.calls (DB.trace w') = [DB.rocksdb_close].
Proof.
  destruct (guarded_method_after_close silent_engine (DB.OFlush 0%nat)
              (DB.RErr (Some DB.errDBClosed)) open_handle
              eq_refl eq_refl eq_refl eq_refl)
    as [(w' & Hrun & Hcalls & _) _].
  exists w'. split; [exact Hrun | exact Hcalls].
Defined.

Lemma unguarded_method_after_close_witness :
  ∃ w' call,
    (DB.Close silent_engine;; DB.run silent_engine (DB.OPut 0%nat None None))
      open_handle = (DB.Undefined, w')
    ∧ DB.calls (DB.trace w')
      = DB.calls (DB.trace open_handle) ++ [DB.rocksdb_close; call]
    ∧ DB.uses_db call = true.
Proof.
  apply (unguarded_method_after_close silent_engine (DB.OPut 0%nat None None)
           open_handle); reflexivity.
Defined.

Lemma close_excludes_readers_witness :
  (∃ w' es,
     DB.run silent_engine (DB.OGetProperty "rocksdb.stats") closing_handle
       = (DB.Blocked, w')
     ∧ DB.trace w' = DB.trace closing_handle ++ es
     ∧ forallb copy_event es = true
     ∧ DB.db w' = DB.db closing_handle
     ∧ DB.live w' = DB.live closing_handle)
  ∧ DB.run silent_engine DB.OClose closing_handle
    = (DB.Blocked, closing_handle).
Proof.
  destruct (close_excludes_readers silent_engine
              (DB.OGetProperty "rocksdb.stats") closing_handle)
    as [Hreader Hclose].
  split; [exact (Hreader eq_refl eq_refl) | apply Hclose; left; reflexivity].
Defined.

Lemma lock_free_methods_witness :
  ∃ o w' es,
    DB.run silent_engine DB.ONewSnapshot closing_handle = (o, w')
    ∧ o ≠ DB.Blocked
    ∧ DB.trace w' = DB.trace closing_handle ++ es.
Proof.
  destruct (lock_free_methods silent_engine DB.ONewSnapshot closing_handle
              eq_refl) as (o & w' & es & Hrun & Hnb & Htrace & _).
  exists o, w', es. split; [exact Hrun | split; [exact Hnb | exact Htrace]].
Defined.

Lemma get_bytes_copies_and_frees_witness :
  (DB.GetBytes value_engine 0%nat (Some ["a"%byte]) open_handle).1
  = DB.Done (Some ["1"%byte], None).
Proof.
  destruct (get_bytes_copies_and_frees value_engine 0%nat (Some ["a"%byte])
              open_handle eq_refl eq_refl eq_refl eq_refl) as [Hvalue _].
  destruct (Hvalue ["1"%byte] eq_refl) as [Hres _]; [reflexivity|].
  exact Hres.
Defined.

Lemma compact_range_bounds_witness :
  (DB.CompactRange silent_engine whole_range open_handle).1 = DB.Done ()
  ∧ DB.trace (DB.CompactRange silent_engine whole_range open_handle).2
    = [DB.EvRLock; DB.EvCall (DB.rocksdb_compact_range None None);
       DB.EvRUnlock].
Proof.
  destruct (compact_range_bounds silent_engine 0%nat whole_range open_handle
              eq_refl eq_refl eq_refl)
    as (w1 & cStart & w2 & cLimit & w3 & Hlock & _ & _ & Hres & Htrace & _).
  split; [exact Hres|]. rewrite Htrace. injection Hlock as <-. reflexivity.
Defined.

Lemma multi_get_open_witness :
  ∃ values' errs' w',
    DB.MultiGetBytes silent_engine 0%nat two_keys two_values two_errs
      open_handle = (DB.Done (values', errs'), w')
    ∧ length values' = 2%nat.
Proof.
  assert (Hsmall : ∀ (i : nat) (b : bytes),
            DB.r_values silent_reply !! i = Some (Some b) →
            Z.of_nat (length b) < 2 ^ 31) by (intros i b H; discriminate H).
  destruct (multi_get_open silent_engine 0%nat two_keys two_values two_errs
              open_handle eq_refl eq_refl eq_refl) as
    (values' & errs' & w' & Hrun & Hlen & _);
    [discriminate | simpl; lia | simpl; lia | exact Hsmall |].
  exists values', errs', w'. split; [exact Hrun | exact Hlen].
Defined.

Lemma approximate_sizes_open_witness :
  ∃ sizes w',
    DB.GetApproximateSizes silent_engine [whole_range] true open_handle
      = (DB.Done (Some sizes), w')
    ∧ length sizes = 1%nat.
Proof.
  destruct (approximate_sizes_open silent_engine [whole_range] true
              open_handle eq_refl eq_refl eq_refl) as
    (sizes & w' & copies & frees & Hrun & Hlen & _); [discriminate|].
  exists sizes, w'. split; [exact Hrun | exact Hlen].
Defined.

Lemma open_column_families_result_witness :
  ∃ res w',
    DB.OpenDbColumnFamilies silent_engine 0%nat "testdb" ["default"%string] [0%nat]
      open_handle = (DB.Done res, w').
Proof.
  destruct (open_column_families_result silent_engine 0%nat "testdb"
              ["default"%string] [0%nat] open_handle) as
    (res & w' & es & t & Hrun & _); [discriminate | reflexivity |].
  exists res, w'. exact Hrun.
Defined.

Lemma native_filter_keeps_everything_witness :
  Filter.Name (Filter.NewNativeCompactionFilter ()) = EmptyString
  ∧ ∀ cLevel cKey cKeyLen cVal cValLen (out : Filter.outputs (slice Byte.byte)),
      Filter.gorocksdb_compactionfilter_filter
        (λ (p : slice Byte.byte) (_ : Z), p) (λ b, b)
        identity_registry 0 cLevel cKey cKeyLen cVal cValLen out
      = Some (0, out).
Proof.
  apply (native_filter_keeps_everything (λ (p : slice Byte.byte) (_ : Z), p)
           (λ b, b) () identity_registry 0 EmptyString).
  reflexivity.
Defined.

Lemma get_property_open_witness :
  (DB.GetProperty silent_engine "rocksdb.stats" open_handle).1
  = DB.Done EmptyString.
Proof.
  destruct (get_property_open silent_engine "rocksdb.stats" open_handle
              eq_refl eq_refl eq_refl) as (Hres & _).
  exact Hres.
Defined.

